(** * The Verba React adapter: Provider, context value and accessor hook

    A shallow embedding of [src/context.ts] (the context slot), the
    [VerbaProvider] component and the [useVerba] hook.  The translation
    client ([@verbadev/js]) is an external collaborator: it is taken as an
    interface ([VerbaClient]) and every statement below holds for all of
    its implementations.

    The component instance is modelled as a record of its hook cells
    ([useState], [useRef], [useCallback], [useMemo], the mounted effect)
    together with the heap of client objects it has allocated.  Callbacks
    and effect bodies are programs in a small state-and-exception monad
    whose primitive operations are recorded in a trace. *)

From Stdlib Require Import String ZArith List Lia.
From stdpp Require Import base decidable option list strings.
Import ListNotations.
Local Open Scope string_scope.

(** ** Values crossing the boundary *)

(** [Record<string, string | number>] *)
Inductive ParamValue : Type :=
| PString (s : string)
| PNumber (n : Z).

Definition Params : Type := list (string * ParamValue).

(** The second argument of [t]: [string | Record<string, string | number>]. *)
Inductive DefaultOrParams : Type :=
| DefaultValue (s : string)
| ParamsValue (p : Params).

(** [typeof x === 'string'] on an optional second argument. *)
Definition typeof_string (x : option DefaultOrParams) : option string :=
  match x with
  | Some (DefaultValue s) => Some s
  | _ => None
  end.

(** [VerbaProviderProps] without [children].  The locale detector is a
    function reference: the adapter hands it to the client and compares it
    by identity, it never calls it. *)
Record VerbaProviderProps : Type := {
  projectId : string;
  publicKey : string;
  locale : option string;
  baseUrl : option string;
  localeDetector : option nat;
}.

#[global] Instance VerbaProviderProps_eq_dec : EqDecision VerbaProviderProps.
Proof. solve_decision. Defined.

(** [VerbaContextValue].  The two function members are closures over the
    Provider's ref cell: [value_t] holds the identity of the current [t]
    callback, and the callbacks themselves are the programs [t] and
    [setLocale] below ([setLocale] has an empty dependency list, so its
    identity never changes). *)
Record VerbaContextValue : Type := {
  value_t : nat;
  value_locale : string;
  value_locales : list string;
  value_defaultLocale : option string;
  value_isReady : bool;
}.

(** Thrown values. *)
Inductive Exn : Type :=
| Error (msg : string)
| TypeError (msg : string).

Inductive Result (A : Type) : Type :=
| Ok (a : A)
| Throw (e : Exn).
Arguments Ok {A} a.
Arguments Throw {A} e.

(** ** The context slot and the accessor hook *)

(** [createContext<VerbaContextValue | null>(null)] *)
Definition VerbaContext : option VerbaContextValue := None.

(** [useContext]: the value of the nearest enclosing Provider element
    (enclosing providers listed innermost first), the default otherwise. *)
Definition useContext {A : Type} (default : A) (enclosing : list A) : A :=
  match enclosing with
  | nearest :: _ => nearest
  | [] => default
  end.

Definition useVerba (enclosing : list (option VerbaContextValue))
  : Result VerbaContextValue :=
  let context := useContext VerbaContext enclosing in
  match context with
  | None => Throw (Error "useVerba must be used within a <VerbaProvider>")
  | Some context => Ok context
  end.

(** ** The external client *)

(** The interface of [Verba] the adapter relies on.  A client is a mutable
    object; [V] is the type of its internal state. *)
Class VerbaClient (V : Type) : Type := {
  verba_new : VerbaProviderProps -> V;
  verba_getLocale : V -> string;
  verba_setLocale : string -> V -> V;
  verba_getLocales : V -> list string;
  verba_getDefaultLocale : V -> option string;
  verba_t : V -> string -> option DefaultOrParams -> option Params -> string;
}.

(** Object identity of a client instance: its address in the heap. *)
Definition ref : Type := nat.

Inductive PromiseState : Type :=
| Pending
| Fulfilled
| Rejected.

#[global] Instance PromiseState_eq_dec : EqDecision PromiseState.
Proof. solve_decision. Defined.

(** Primitive operations performed by the adapter, in program order. *)
Inductive Action : Type :=
| ASetIsReady (b : bool)
| ASetCurrentLocale (l : string)
| ANewVerba (config : VerbaProviderProps) (r : ref)
| AStoreRef (o : option ref)
| AReadyThen (r : ref)
| AClientSetLocale (r : ref) (l : string).

(** A memo cell of [useMemo] / [useCallback]. *)
Record Memo (D A : Type) : Type := {
  memo_deps : D;
  memo_val : A;
}.
Arguments memo_deps {D A} _.
Arguments memo_val {D A} _.
Arguments Build_Memo {D A} _ _.

Section Provider.

Context {V : Type} `{VerbaClient V}.

(** A client object on the heap: its state, the promise returned by
    [ready()], and whether a fulfilment callback was attached with [then]. *)
Record Instance : Type := {
  client : V;
  ready : PromiseState;
  then_attached : bool;
}.

(** One mounted [VerbaProvider]. *)
Record World : Type := {
  props : VerbaProviderProps;
  isReady : bool;
  currentLocale : string;
  verbaRef : option ref;
  heap : list Instance;
  effect : option (VerbaProviderProps * ref);
  unmounted : bool;
  t_memo : option (Memo (string * bool) nat);
  value_memo : option (Memo (nat * string * bool) VerbaContextValue);
  trace : list Action;
}.

Definition with_props (x : VerbaProviderProps) (w : World) : World :=
  {| props := x; isReady := isReady w; currentLocale := currentLocale w;
     verbaRef := verbaRef w; heap := heap w; effect := effect w;
     unmounted := unmounted w; t_memo := t_memo w;
     value_memo := value_memo w; trace := trace w |}.

Definition with_isReady (x : bool) (w : World) : World :=
  {| props := props w; isReady := x; currentLocale := currentLocale w;
     verbaRef := verbaRef w; heap := heap w; effect := effect w;
     unmounted := unmounted w; t_memo := t_memo w;
     value_memo := value_memo w; trace := trace w |}.

Definition with_currentLocale (x : string) (w : World) : World :=
  {| props := props w; isReady := isReady w; currentLocale := x;
     verbaRef := verbaRef w; heap := heap w; effect := effect w;
     unmounted := unmounted w; t_memo := t_memo w;
     value_memo := value_memo w; trace := trace w |}.

Definition with_verbaRef (x : option ref) (w : World) : World :=
  {| props := props w; isReady := isReady w; currentLocale := currentLocale w;
     verbaRef := x; heap := heap w; effect := effect w;
     unmounted := unmounted w; t_memo := t_memo w;
     value_memo := value_memo w; trace := trace w |}.

Definition with_heap (x : list Instance) (w : World) : World :=
  {| props := props w; isReady := isReady w; currentLocale := currentLocale w;
     verbaRef := verbaRef w; heap := x; effect := effect w;
     unmounted := unmounted w; t_memo := t_memo w;
     value_memo := value_memo w; trace := trace w |}.

Definition with_effect (x : option (VerbaProviderProps * ref)) (w : World)
  : World :=
  {| props := props w; isReady := isReady w; currentLocale := currentLocale w;
     verbaRef := verbaRef w; heap := heap w; effect := x;
     unmounted := unmounted w; t_memo := t_memo w;
     value_memo := value_memo w; trace := trace w |}.

Definition with_unmounted (x : bool) (w : World) : World :=
  {| props := props w; isReady := isReady w; currentLocale := currentLocale w;
     verbaRef := verbaRef w; heap := heap w; effect := effect w;
     unmounted := x; t_memo := t_memo w;
     value_memo := value_memo w; trace := trace w |}.

Definition with_memos (tm : Memo (string * bool) nat)
    (vm : Memo (nat * string * bool) VerbaContextValue) (w : World) : World :=
  {| props := props w; isReady := isReady w; currentLocale := currentLocale w;
     verbaRef := verbaRef w; heap := heap w; effect := effect w;
     unmounted := unmounted w; t_memo := Some tm;
     value_memo := Some vm; trace := trace w |}.

Definition log (a : Action) (w : World) : World :=
  {| props := props w; isReady := isReady w; currentLocale := currentLocale w;
     verbaRef := verbaRef w; heap := heap w; effect := effect w;
     unmounted := unmounted w; t_memo := t_memo w;
     value_memo := value_memo w; trace := trace w ++ [a] |}.

(** ** The monad of callbacks and effects *)

Definition M (A : Type) : Type := World -> Result (A * World).

Definition ret {A : Type} (a : A) : M A := fun w => Ok (a, w).

Definition bind {A B : Type} (m : M A) (k : A -> M B) : M B :=
  fun w =>
    match m w with
    | Ok (a, w') => k a w'
    | Throw e => Throw e
    end.

Definition throw {A : Type} (e : Exn) : M A := fun _ => Throw e.
Definition get : M World := fun w => Ok (w, w).
Definition modify (f : World -> World) : M unit := fun w => Ok (tt, f w).

Notation "x <- m ;; k" := (bind m (fun x => k))
  (at level 20, m at level 99, k at level 200, only parsing).
Notation "m ;; k" := (bind m (fun _ => k))
  (at level 100, k at level 200, right associativity, only parsing).

(** Final world of a program, or the exception it threw. *)
Definition exec {A : Type} (m : M A) (w : World) : Result World :=
  match m w with
  | Ok (_, w') => Ok w'
  | Throw e => Throw e
  end.

(** *** Primitive operations *)

Definition setIsReady (b : bool) : M unit :=
  modify (fun w => log (ASetIsReady b) (with_isReady b w)).

Definition setCurrentLocale (l : string) : M unit :=
  modify (fun w => log (ASetCurrentLocale l) (with_currentLocale l w)).

(** [verbaRef.current] *)
Definition readRef : M (option ref) := fun w => Ok (verbaRef w, w).

(** [verbaRef.current = o] *)
Definition writeRef (o : option ref) : M unit :=
  modify (fun w => log (AStoreRef o) (with_verbaRef o w)).

(** [new Verba(config)]: a fresh object; its readiness is outstanding. *)
Definition newVerba (config : VerbaProviderProps) : M ref :=
  fun w =>
    let r := length (heap w) in
    let i := {| client := verba_new config; ready := Pending;
                then_attached := false |} in
    Ok (r, log (ANewVerba config r) (with_heap (heap w ++ [i]) w)).

(** [o.method(...)]: a method call on the value [o] of an expression that
    may be [null].  The method reads and may update the client's state. *)
Definition invoke {A : Type} (o : option ref) (method : V -> A * V) : M A :=
  fun w =>
    match o with
    | None => Throw (TypeError "Cannot read properties of null")
    | Some r =>
        match heap w !! r with
        | None => Throw (TypeError "no such object")
        | Some i =>
            let '(a, v') := method (client i) in
            Ok (a, with_heap (<[r := {| client := v'; ready := ready i;
                                        then_attached := then_attached i |}]>
                                (heap w)) w)
        end
    end.

(** [o.setLocale(l)], recorded in the trace. *)
Definition invoke_setLocale (o : option ref) (l : string) : M unit :=
  invoke o (fun v => (tt, verba_setLocale l v)) ;;
  modify (fun w =>
    match o with
    | Some r => log (AClientSetLocale r l) w
    | None => w
    end).

(** A method call that only reads the client. *)
Definition getter {A : Type} (f : V -> A) (v : V) : A * V := (f v, v).

(** [o?.method(...)]: [undefined] when [o] is [null]. *)
Definition invoke_opt {A : Type} (o : option ref) (method : V -> A * V)
  : M (option A) :=
  match o with
  | None => ret None
  | Some _ => a <- invoke o method ;; ret (Some a)
  end.

(** [verba.ready().then(callback)]: attaches the fulfilment callback and
    returns at once. *)
Definition readyThen (verba : ref) : M unit :=
  modify (fun w =>
    log (AReadyThen verba)
      (with_heap
         (match heap w !! verba with
          | Some i => <[verba := {| client := client i; ready := ready i;
                                    then_attached := true |}]> (heap w)
          | None => heap w
          end) w)).

(** Objects are truthy, [null] is falsy. *)
Definition truthy (o : option ref) : bool :=
  match o with
  | Some _ => true
  | None => false
  end.

(** ** The Provider's effect *)

(** Body of the [useEffect] callback. *)
Definition effect_body (config : VerbaProviderProps) : M ref :=
  setIsReady false ;;
  verba <- newVerba config ;;
  writeRef (Some verba) ;;
  readyThen verba ;;
  ret verba.

(** The callback passed to [then]. *)
Definition ready_callback (verba : ref) : M unit :=
  cur <- readRef ;;
  if decide (cur = Some verba) then
    l <- invoke (Some verba) (getter verba_getLocale) ;;
    setCurrentLocale l ;;
    setIsReady true
  else ret tt.

(** The cleanup function returned by the effect. *)
Definition effect_cleanup (verba : ref) : M unit :=
  cur <- readRef ;;
  if decide (cur = Some verba) then writeRef None else ret tt.

(** ** The exposed callbacks *)

Definition setLocale (newLocale : string) : M unit :=
  cur <- readRef ;;
  if truthy cur then
    cur' <- readRef ;;
    invoke_setLocale cur' newLocale ;;
    setCurrentLocale newLocale
  else ret tt.

Definition t (key : string) (defaultValueOrParams : option DefaultOrParams)
    (params : option Params) : M string :=
  cur <- readRef ;;
  if negb (truthy cur) then
    ret (match typeof_string defaultValueOrParams with
         | Some s => s
         | None => key
         end)
  else
    cur' <- readRef ;;
    invoke cur' (getter (fun v => verba_t v key defaultValueOrParams params)).

(** ** Rendering *)

(** [useCallback(fn, deps)]: a new function identity when [deps] changed. *)
Definition useCallback {D : Type} `{EqDecision D}
    (cell : option (Memo D nat)) (deps : D) : Memo D nat :=
  match cell with
  | None => Build_Memo deps 0
  | Some m =>
      if decide (memo_deps m = deps) then m
      else Build_Memo deps (S (memo_val m))
  end.

(** [useMemo(factory, deps)] *)
Definition useMemo {D A : Type} `{EqDecision D}
    (cell : option (Memo D A)) (deps : D) (factory : M A) : M (Memo D A) :=
  match cell with
  | None => a <- factory ;; ret (Build_Memo deps a)
  | Some m =>
      if decide (memo_deps m = deps) then ret m
      else a <- factory ;; ret (Build_Memo deps a)
  end.

(** The factory of the [value] memo. *)
Definition value_factory (t_id : nat) : M VerbaContextValue :=
  w <- get ;;
  cur <- readRef ;;
  ls <- invoke_opt cur (getter verba_getLocales) ;;
  cur' <- readRef ;;
  dl <- invoke_opt cur' (getter verba_getDefaultLocale) ;;
  ret {| value_t := t_id;
         value_locale := currentLocale w;
         value_locales := default [] ls;
         value_defaultLocale := default None dl;
         value_isReady := isReady w |}.

(** The hook cells before the first render: [useState(false)],
    [useState(locale ?? 'en')], [useRef(null)]. *)
Definition fresh (p : VerbaProviderProps) : World :=
  {| props := p; isReady := false;
     currentLocale := default "en" (locale p);
     verbaRef := None; heap := []; effect := None; unmounted := false;
     t_memo := None; value_memo := None; trace := [] |}.

(** One render of [VerbaProvider] with the current props and state. *)
Definition VerbaProvider : M unit :=
  w <- get ;;
  if unmounted w then ret tt
  else
    let tm := useCallback (t_memo w) (currentLocale w, isReady w) in
    vm <- useMemo (value_memo w)
            (memo_val tm, currentLocale w, isReady w)
            (value_factory (memo_val tm)) ;;
    modify (with_memos tm vm).

(** The value the Provider element supplies to its subtree. *)
Definition provided (w : World) : option VerbaContextValue :=
  if unmounted w then None else memo_val <$> value_memo w.

(** React runs the passive effects of the last commit: on the first commit
    the effect body; later, when a dependency changed, the previous cleanup
    and then the body. *)
Definition flush_effects : M unit :=
  w <- get ;;
  if unmounted w then ret tt
  else
    match effect w with
    | None =>
        verba <- effect_body (props w) ;;
        modify (with_effect (Some (props w, verba)))
    | Some (deps, verba) =>
        if decide (deps = props w) then ret tt
        else
          effect_cleanup verba ;;
          verba' <- effect_body (props w) ;;
          modify (with_effect (Some (props w, verba')))
    end.

(** The promise of [r] settles.  Returns whether a callback is to run. *)
Definition settle (r : ref) (outcome : PromiseState) : M bool :=
  w <- get ;;
  match heap w !! r with
  | Some i =>
      match ready i with
      | Pending =>
          modify (with_heap (<[r := {| client := client i; ready := outcome;
                                       then_attached := then_attached i |}]>
                               (heap w))) ;;
          ret (then_attached i)
      | _ => ret false
      end
  | None => ret false
  end.

(** ** Events *)

(** What happens to a Provider after its first render:
    - [Flush]: React runs the pending passive effects;
    - [Render p]: the Provider is rendered again with props [p] and the
      effects of that commit run; pending effects run before the render;
    - [Unmount]: the Provider is removed and its cleanup runs;
    - [Resolve r], [Reject r]: the promise returned by [r.ready()] is
      fulfilled or rejected; a promise settles once;
    - [ClientInternal r v]: the client [r] moves to state [v] by its own
      activity (network responses, locale negotiation);
    - [CallSetLocale x]: some consumer calls the exposed [setLocale]. *)
Inductive Event : Type :=
| Flush
| Render (p : VerbaProviderProps)
| Unmount
| Resolve (r : ref)
| Reject (r : ref)
| ClientInternal (r : ref) (v : V)
| CallSetLocale (x : string).

Definition handle (e : Event) : M unit :=
  match e with
  | Flush => flush_effects ;; VerbaProvider
  | Render p =>
      w <- get ;;
      if unmounted w then ret tt
      else
        flush_effects ;; VerbaProvider ;;
        modify (with_props p) ;; VerbaProvider ;;
        flush_effects ;; VerbaProvider
  | Unmount =>
      w <- get ;;
      if unmounted w then ret tt
      else
        flush_effects ;;
        w' <- get ;;
        match effect w' with
        | Some (_, verba) => effect_cleanup verba
        | None => ret tt
        end ;;
        modify (fun w => with_unmounted true (with_effect None w))
  | Resolve r =>
      run <- settle r Fulfilled ;;
      (if run : bool then ready_callback r else ret tt) ;;
      VerbaProvider
  | Reject r =>
      settle r Rejected ;;
      ret tt
  | ClientInternal r v =>
      modify (fun w =>
        match heap w !! r with
        | Some i => with_heap (<[r := {| client := v; ready := ready i;
                                         then_attached := then_attached i |}]>
                                 (heap w)) w
        | None => w
        end)
  | CallSetLocale x => setLocale x ;; VerbaProvider
  end.

Definition step (e : Event) (w : World) : Result World := exec (handle e) w.

Fixpoint run (es : list Event) (w : World) : Result World :=
  match es with
  | [] => Ok w
  | e :: es' =>
      match step e w with
      | Ok w' => run es' w'
      | Throw x => Throw x
      end
  end.

(** The first render of a Provider mounted with props [p]. *)
Definition initial (p : VerbaProviderProps) : Result World :=
  exec VerbaProvider (fresh p).

Inductive reachable : World -> Prop :=
| reachable_initial p w : initial p = Ok w -> reachable w
| reachable_step e w w' : reachable w -> step e w = Ok w' -> reachable w'.

(** ** Closed forms used in the proofs *)

(** The value computed by [value_factory] in world [w]. *)
Definition computed_value (t_id : nat) (w : World) : VerbaContextValue :=
  {| value_t := t_id;
     value_locale := currentLocale w;
     value_locales :=
       match verbaRef w with
       | Some r =>
           match heap w !! r with
           | Some i => verba_getLocales (client i)
           | None => []
           end
       | None => []
       end;
     value_defaultLocale :=
       match verbaRef w with
       | Some r =>
           match heap w !! r with
           | Some i => verba_getDefaultLocale (client i)
           | None => None
           end
       | None => None
       end;
     value_isReady := isReady w |}.

(** The world after one render. *)
Definition rendered (w : World) : World :=
  if unmounted w then w
  else
    let tm := useCallback (t_memo w) (currentLocale w, isReady w) in
    let deps := (memo_val tm, currentLocale w, isReady w) in
    let vm :=
      match value_memo w with
      | Some m =>
          if decide (memo_deps m = deps) then m
          else Build_Memo deps (computed_value (memo_val tm) w)
      | None => Build_Memo deps (computed_value (memo_val tm) w)
      end in
    with_memos tm vm w.

(** The instance [new Verba(config)] leaves on the heap once [then] ran. *)
Definition new_instance (config : VerbaProviderProps) : Instance :=
  {| client := verba_new config; ready := Pending; then_attached := true |}.

(** The world after the effect body ran for [config]. *)
Definition after_effect (config : VerbaProviderProps) (w : World) : World :=
  {| props := props w; isReady := false; currentLocale := currentLocale w;
     verbaRef := Some (length (heap w));
     heap := heap w ++ [new_instance config];
     effect := effect w; unmounted := unmounted w; t_memo := t_memo w;
     value_memo := value_memo w;
     trace := trace w ++ [ASetIsReady false;
                          ANewVerba config (length (heap w));
                          AStoreRef (Some (length (heap w)));
                          AReadyThen (length (heap w))] |}.

(** The world after the cleanup of the effect that created [verba]. *)
Definition after_cleanup (verba : ref) (w : World) : World :=
  if decide (verbaRef w = Some verba)
  then log (AStoreRef None) (with_verbaRef None w)
  else w.

(** The world after the pending passive effects ran. *)
Definition flushed (w : World) : World :=
  if unmounted w then w
  else
    match effect w with
    | None =>
        with_effect (Some (props w, length (heap w)))
          (after_effect (props w) w)
    | Some (deps, verba) =>
        if decide (deps = props w) then w
        else
          let w1 := after_cleanup verba w in
          with_effect (Some (props w, length (heap w1)))
            (after_effect (props w) w1)
    end.

(** The world after the callback attached to [r.ready()] ran. *)
Definition called_back (r : ref) (w : World) : World :=
  if decide (verbaRef w = Some r) then
    match heap w !! r with
    | Some i =>
        let l := verba_getLocale (client i) in
        log (ASetIsReady true)
          (with_isReady true
             (log (ASetCurrentLocale l) (with_currentLocale l w)))
    | None => w
    end
  else w.

(** The world after the promise of [r] settled with [outcome]. *)
Definition settled (r : ref) (outcome : PromiseState) (w : World) : World :=
  match heap w !! r with
  | Some i =>
      match ready i with
      | Pending =>
          with_heap (<[r := {| client := client i; ready := outcome;
                               then_attached := then_attached i |}]>
                       (heap w)) w
      | _ => w
      end
  | None => w
  end.

(** Whether the settling of [r] in [w] triggers its callback. *)
Definition triggers (r : ref) (w : World) : bool :=
  match heap w !! r with
  | Some i =>
      match ready i with
      | Pending => then_attached i
      | _ => false
      end
  | None => false
  end.

(** The world after the exposed [setLocale x] ran. *)
Definition locale_set (x : string) (w : World) : World :=
  match verbaRef w with
  | Some r =>
      match heap w !! r with
      | Some i =>
          log (ASetCurrentLocale x)
            (with_currentLocale x
               (log (AClientSetLocale r x)
                  (with_heap
                     (<[r := {| client := verba_setLocale x (client i);
                                ready := ready i;
                                then_attached := then_attached i |}]>
                        (heap w)) w)))
      | None => w
      end
  | None => w
  end.

(** The world after the Provider was unmounted. *)
Definition torn_down (w : World) : World :=
  if unmounted w then w
  else
    let w1 := flushed w in
    with_unmounted true
      (with_effect None
         (match effect w1 with
          | Some (_, verba) => after_cleanup verba w1
          | None => w1
          end)).

(** The transition function: the world after event [e]. *)
Definition next (e : Event) (w : World) : World :=
  match e with
  | Flush => rendered (flushed w)
  | Render p =>
      if unmounted w then w
      else rendered (flushed (rendered (with_props p (rendered (flushed w)))))
  | Unmount => torn_down w
  | Resolve r =>
      rendered (if triggers r w then called_back r (settled r Fulfilled w)
                else settled r Fulfilled w)
  | Reject r => settled r Rejected w
  | ClientInternal r v =>
      match heap w !! r with
      | Some i => with_heap (<[r := {| client := v; ready := ready i;
                                       then_attached := then_attached i |}]>
                               (heap w)) w
      | None => w
      end
  | CallSetLocale x => rendered (locale_set x w)
  end.

(** State of the promise returned by [r.ready()]. *)
Definition promise (w : World) (r : ref) : option PromiseState :=
  ready <$> heap w !! r.

(** The memo cells agree with the state they were computed from. *)
Definition synced (w : World) : Prop :=
  exists tm vm,
    t_memo w = Some tm /\ value_memo w = Some vm /\
    memo_deps tm = (currentLocale w, isReady w) /\
    memo_deps vm = (memo_val tm, currentLocale w, isReady w) /\
    value_locale (memo_val vm) = currentLocale w /\
    value_isReady (memo_val vm) = isReady w.

(** The ref cell holds an allocated object. *)
Definition valid (w : World) : Prop :=
  forall r, verbaRef w = Some r -> r < length (heap w).

(** A kept [value] memo cell carries the state it was computed from. *)
Definition memo_wf (w : World) : Prop :=
  forall vm, value_memo w = Some vm ->
    value_locale (memo_val vm) = snd (fst (memo_deps vm)) /\
    value_isReady (memo_val vm) = snd (memo_deps vm).

(** What holds of a Provider at every point of its life, also between
    two renders. *)
Record stable (w : World) : Prop := {
  c_ref : forall r, verbaRef w = Some r -> r < length (heap w);
  c_effect : forall d r, effect w = Some (d, r) ->
      unmounted w = false /\ verbaRef w = Some r;
  c_no_effect : effect w = None -> verbaRef w = None;
  c_unmounted : unmounted w = true -> effect w = None;
  c_first : unmounted w = false -> effect w = None ->
      isReady w = false /\
      forall vm, value_memo w = Some vm ->
        value_locales (memo_val vm) = [] /\
        value_defaultLocale (memo_val vm) = None;
  c_ready : forall r, verbaRef w = Some r -> isReady w = true ->
      promise w r = Some Fulfilled;
  c_memo : memo_wf w;
}.

(** What holds in addition once an event has been handled to the end:
    the mounted effect is the one of the current props and the memo cells
    are up to date. *)
Record consistent (w : World) : Prop := {
  c_stable : stable w;
  c_deps : forall d r, effect w = Some (d, r) -> d = props w;
  c_synced : unmounted w = false -> synced w;
}.

(** [w'] is an unmounted world with the reactive state, the memo cells
    and the trace of [w]. *)
Definition frozen (w w' : World) : Prop :=
  unmounted w' = true /\ verbaRef w' = None /\
  length (heap w') = length (heap w) /\
  isReady w' = isReady w /\ currentLocale w' = currentLocale w /\
  t_memo w' = t_memo w /\ value_memo w' = value_memo w /\
  trace w' = trace w.

(** Events that neither resolve a readiness promise nor call [setLocale]. *)
Definition quiet (e : Event) : bool :=
  match e with
  | Resolve _ | CallSetLocale _ => false
  | _ => true
  end.

(** Number of steps of the run of [es] from [w] at which [isReady] goes
    from [false] to [true] while [r] is the stored instance. *)
Fixpoint ready_flips (r : ref) (es : list Event) (w : World) : nat :=
  match es with
  | [] => 0
  | e :: es' =>
      match step e w with
      | Ok w' =>
          (if negb (isReady w) && isReady w' &&
              bool_decide (verbaRef w' = Some r)
           then 1 else 0) + ready_flips r es' w'
      | Throw _ => 0
      end
  end.


(** What [t] returns when it does not reach a client. *)
Definition fallback (key : string) (d : option DefaultOrParams) : string :=
  match typeof_string d with
  | Some s => s
  | None => key
  end.

(** An instance is live while it is the one stored in the ref cell: only
    then does its readiness callback update the state. *)
Definition live (w : World) (r : ref) : Prop := verbaRef w = Some r.


(** Every client on the heap has had its readiness callback attached. *)
Definition attached (w : World) : Prop :=
  forall r i, heap w !! r = Some i -> then_attached i = true.

(** Identity of the [t] callback of the last render. *)
Definition t_identity (w : World) : option nat := memo_val <$> t_memo w.

(** The two state cells consumers are re-rendered for. *)
Definition reactive (w : World) : string * bool :=
  (currentLocale w, isReady w).

End Provider.

Arguments Instance V : clear implicits.
Arguments World V : clear implicits.
Arguments Event V : clear implicits.

(** ** A small client used to run the model on concrete inputs

    It negotiates [en-US] when no locale is configured and starts with the
    translations of its locale already cached. *)
Module Sample.

Record Client : Type := {
  sample_locale : string;
  sample_cache : list (string * string);
}.

Definition cached (l : option string) : list (string * string) :=
  if decide (l = Some "es") then [("greeting", "Hola")] else [].

Definition lookup_key (key : string) (c : list (string * string))
  : option string :=
  snd <$> List.find (fun kv => String.eqb (fst kv) key) c.

#[global] Instance sample_client : VerbaClient Client := {|
  verba_new p := {| sample_locale := default "en-US" (locale p);
                    sample_cache := cached (locale p) |};
  verba_getLocale v := sample_locale v;
  verba_setLocale l v := {| sample_locale := l;
                            sample_cache := cached (Some l) |};
  verba_getLocales _ := ["en-US"; "es"];
  verba_getDefaultLocale _ := Some "en-US";
  verba_t v key d _ :=
    match lookup_key key (sample_cache v) with
    | Some s => s
    | None => match typeof_string d with Some s => s | None => key end
    end;
|}.

Definition config (l : option string) : VerbaProviderProps :=
  {| projectId := "demo"; publicKey := "pk_demo"; locale := l;
     baseUrl := None; localeDetector := None |}.

(** The world reached from a mount with [config l] by the events [es]. *)
Definition after (l : option string) (es : list (Event Client))
  : World Client :=
  match initial (config l) with
  | Ok w0 =>
      match run es w0 with
      | Ok w => w
      | Throw _ => fresh (config l)
      end
  | Throw _ => fresh (config l)
  end.

End Sample.

(** * Properties *)

Section Facts.

Context {V : Type} `{VerbaClient V}.

Implicit Types (w : World V) (r : ref) (p : VerbaProviderProps).

(** ** Running the programs *)

Lemma bind_Ok {A B : Type} (m : M A) (k : A -> M B) w a w' :
  m w = Ok (a, w') -> bind m k w = k a w'.
Proof. intros E. unfold bind. rewrite E. reflexivity. Qed.

Lemma with_heap_same w : with_heap (heap w) w = w.
Proof. destruct w; reflexivity. Qed.

Lemma instance_eta (i : Instance V) :
  {| client := client i; ready := ready i;
     then_attached := then_attached i |} = i.
Proof. destruct i; reflexivity. Qed.

Lemma invoke_getter {A : Type} (f : V -> A) w r i :
  heap w !! r = Some i ->
  invoke (Some r) (getter f) w = Ok (f (client i), w).
Proof.
  intros E. unfold invoke, getter. rewrite E. cbn beta iota.
  rewrite instance_eta, list_insert_id by exact E.
  rewrite with_heap_same.
  reflexivity.
Qed.

Lemma invoke_null {A : Type} (method : V -> A * V) w :
  invoke None method w = Throw (TypeError "Cannot read properties of null").
Proof. reflexivity. Qed.

Lemma allocated_lookup w r :
  r < length (heap w) -> exists i, heap w !! r = Some i.
Proof. intros L. apply lookup_lt_is_Some_2 in L. destruct L as [i E]. eauto. Qed.

Lemma value_factory_run t_id w :
  valid w -> value_factory t_id w = Ok (computed_value t_id w, w).
Proof.
  intros Hv. unfold value_factory, computed_value, readRef, get, invoke_opt.
  unfold bind at 1 2. 
  destruct (verbaRef w) as [r|] eqn:E.
  - destruct (allocated_lookup w r (Hv r E)) as [i Ei]. rewrite Ei.
    unfold bind, ret. rewrite (invoke_getter _ _ _ _ Ei). rewrite E.
    rewrite (invoke_getter _ _ _ _ Ei). reflexivity.
  - unfold bind, ret. rewrite E. reflexivity.
Qed.

Lemma VerbaProvider_run w :
  valid w -> VerbaProvider w = Ok (tt, rendered w).
Proof.
  intros Hv. unfold VerbaProvider, rendered, get.
  unfold bind at 1. destruct (unmounted w); [reflexivity|].
  unfold useMemo.
  destruct (value_memo w) as [m|].
  - destruct (decide _); [reflexivity|].
    unfold bind at 1. unfold bind at 1.
    rewrite (value_factory_run _ _ Hv). reflexivity.
  - unfold bind at 1. unfold bind at 1.
    rewrite (value_factory_run _ _ Hv). reflexivity.
Qed.

Lemma rendered_synced w : synced w -> rendered w = w.
Proof.
  intros (tm & vm & Et & Ev & Dt & Dv & _). unfold rendered.
  destruct (unmounted w); [reflexivity|].
  rewrite Et, Ev. unfold useCallback.
  rewrite decide_True by exact Dt.
  rewrite decide_True by exact Dv.
  destruct w; simpl in *; subst; reflexivity.
Qed.

Lemma useCallback_deps {D : Type} `{EqDecision D}
    (cell : option (Memo D nat)) (deps : D) :
  memo_deps (useCallback cell deps) = deps.
Proof.
  unfold useCallback. destruct cell as [m|]; [|reflexivity].
  destruct (decide _); [assumption | reflexivity].
Qed.

Lemma synced_rendered w :
  unmounted w = false -> memo_wf w -> synced (rendered w).
Proof.
  intros Hu Hm. unfold rendered. rewrite Hu.
  set (tm := useCallback (t_memo w) (currentLocale w, isReady w)).
  assert (Dt : memo_deps tm = (currentLocale w, isReady w))
    by apply useCallback_deps.
  destruct (value_memo w) as [m|] eqn:Ev.
  - destruct (decide (memo_deps m = (memo_val tm, currentLocale w, isReady w)))
      as [Dm|Dm].
    + exists tm, m. destruct (Hm m Ev) as [Hl Hr].
      rewrite Dm in Hl, Hr. simpl in *. auto 10.
    + eexists tm, _. simpl. auto 10.
  - eexists tm, _. simpl. auto 10.
Qed.

Lemma effect_body_run p w :
  effect_body p w = Ok (length (heap w), after_effect p w).
Proof.
  unfold effect_body, setIsReady, newVerba, writeRef, readyThen, modify,
    bind, ret, after_effect, new_instance.
  cbn [heap log with_heap with_verbaRef with_isReady].
  rewrite list_lookup_middle by reflexivity.
  rewrite insert_app_r_alt by (cbn [length]; lia).
  rewrite Nat.sub_diag.
  cbn [client ready insert list_insert].
  destruct w as [wp wi wl wr wh we wu wt wv wa].
  cbv [log with_heap with_verbaRef with_isReady props isReady currentLocale
       verbaRef heap effect unmounted t_memo value_memo trace].
  rewrite <- !app_assoc. reflexivity.
Qed.

Lemma effect_cleanup_run r w :
  effect_cleanup r w = Ok (tt, after_cleanup r w).
Proof.
  unfold effect_cleanup, after_cleanup, readRef, writeRef, modify, bind, ret.
  destruct (decide _); reflexivity.
Qed.

Lemma flush_effects_run w : flush_effects w = Ok (tt, flushed w).
Proof.
  unfold flush_effects, flushed, get. unfold bind at 1.
  destruct (unmounted w); [reflexivity|].
  destruct (effect w) as [[d r]|].
  - destruct (decide _); [reflexivity|].
    rewrite (bind_Ok _ _ _ _ _ (effect_cleanup_run r w)).
    rewrite (bind_Ok _ _ _ _ _ (effect_body_run _ _)).
    destruct w; reflexivity.
  - rewrite (bind_Ok _ _ _ _ _ (effect_body_run _ _)).
    reflexivity.
Qed.

Lemma ready_callback_run r w :
  valid w -> ready_callback r w = Ok (tt, called_back r w).
Proof.
  intros Hv. unfold ready_callback, called_back, readRef.
  unfold bind at 1. destruct (decide (verbaRef w = Some r)) as [E|E];
    [|reflexivity].
  destruct (allocated_lookup w r (Hv r E)) as [i Ei]. rewrite Ei.
  rewrite (bind_Ok _ _ _ _ _ (invoke_getter _ _ _ _ Ei)). reflexivity.
Qed.

Lemma settle_run r outcome w :
  settle r outcome w = Ok (triggers r w, settled r outcome w).
Proof.
  unfold settle, triggers, settled, get. unfold bind at 1.
  destruct (heap w !! r) as [i|]; [|reflexivity].
  destruct (ready i); reflexivity.
Qed.

Lemma setLocale_run x w :
  valid w -> setLocale x w = Ok (tt, locale_set x w).
Proof.
  intros Hv. unfold setLocale, locale_set, readRef.
  unfold bind at 1. destruct (verbaRef w) as [r|] eqn:E; [|reflexivity].
  destruct (allocated_lookup w r (Hv r E)) as [i Ei]. simpl.
  unfold bind at 1. rewrite E.
  unfold invoke_setLocale, invoke, bind, modify, setCurrentLocale.
  rewrite Ei. reflexivity.
Qed.

(** *** Validity is kept by every stage *)

Lemma valid_rendered w : valid w -> valid (rendered w).
Proof.
  unfold valid, rendered. destruct (unmounted w); [auto|]. simpl. auto.
Qed.

Lemma valid_after_effect p w : valid (after_effect p w).
Proof.
  unfold valid, after_effect. simpl. intros r [= <-].
  rewrite length_app. simpl. lia.
Qed.

Lemma valid_flushed w : valid w -> valid (flushed w).
Proof.
  intros Hv. unfold flushed. destruct (unmounted w); [assumption|].
  destruct (effect w) as [[d r]|].
  - destruct (decide _); [assumption|].
    intros r'. simpl. intros [= <-]. rewrite length_app. simpl. lia.
  - intros r'. simpl. intros [= <-]. rewrite length_app. simpl. lia.
Qed.

Lemma valid_with_props p w : valid w -> valid (with_props p w).
Proof. unfold valid. simpl. auto. Qed.

Lemma valid_settled r outcome w : valid w -> valid (settled r outcome w).
Proof.
  unfold valid, settled. intros Hv.
  destruct (heap w !! r) as [i|]; [|assumption].
  destruct (ready i); try assumption.
  simpl. intros r' E. rewrite length_insert. auto.
Qed.

Lemma valid_called_back r w : valid w -> valid (called_back r w).
Proof.
  unfold valid, called_back. intros Hv.
  destruct (decide _); [|assumption].
  destruct (heap w !! r); [|assumption]. simpl. auto.
Qed.

Lemma valid_locale_set x w : valid w -> valid (locale_set x w).
Proof.
  intros Hv. unfold locale_set.
  destruct (verbaRef w) as [r|] eqn:E; [|exact Hv].
  destruct (heap w !! r); [|exact Hv].
  intros r'. simpl. intros E'. rewrite length_insert. auto.
Qed.

(** The event handlers never throw in a valid world, and [next] is what
    they compute. *)
Lemma step_next e w : valid w -> step e w = Ok (next e w).
Proof.
  intros Hv. unfold step, exec. destruct e as [|p| |r|r|r v|x]; simpl.
  - rewrite (bind_Ok _ _ _ _ _ (flush_effects_run w)).
    rewrite VerbaProvider_run by auto using valid_flushed. reflexivity.
  - unfold get. unfold bind at 1. destruct (unmounted w); [reflexivity|].
    rewrite (bind_Ok _ _ _ _ _ (flush_effects_run w)).
    rewrite (bind_Ok _ _ _ _ _ (VerbaProvider_run _ (valid_flushed _ Hv))).
    unfold modify at 1. unfold bind at 1.
    assert (Hv2 : valid (with_props p (rendered (flushed w))))
      by auto using valid_with_props, valid_rendered, valid_flushed.
    rewrite (bind_Ok _ _ _ _ _ (VerbaProvider_run _ Hv2)).
    rewrite (bind_Ok _ _ _ _ _ (flush_effects_run _)).
    rewrite VerbaProvider_run
      by auto using valid_rendered, valid_flushed.
    reflexivity.
  - unfold torn_down, get. unfold bind at 1.
    destruct (unmounted w); [reflexivity|].
    rewrite (bind_Ok _ _ _ _ _ (flush_effects_run w)).
    unfold bind at 1. unfold bind at 1.
    destruct (effect (flushed w)) as [[d r]|].
    + rewrite effect_cleanup_run. reflexivity.
    + reflexivity.
  - rewrite (bind_Ok _ _ _ _ _ (settle_run r Fulfilled w)).
    destruct (triggers r w).
    + rewrite (bind_Ok _ _ _ _ _
                 (ready_callback_run r _ (valid_settled r Fulfilled w Hv))).
      rewrite VerbaProvider_run
        by auto using valid_called_back, valid_settled.
      reflexivity.
    + unfold ret at 1. unfold bind at 1.
      rewrite VerbaProvider_run by auto using valid_settled. reflexivity.
  - rewrite (bind_Ok _ _ _ _ _ (settle_run r Rejected w)). reflexivity.
  - reflexivity.
  - rewrite (bind_Ok _ _ _ _ _ (setLocale_run x w Hv)).
    rewrite VerbaProvider_run by auto using valid_locale_set. reflexivity.
Qed.

(** *** What a render leaves untouched *)

Lemma rendered_core w :
  props (rendered w) = props w /\ isReady (rendered w) = isReady w /\
  currentLocale (rendered w) = currentLocale w /\
  verbaRef (rendered w) = verbaRef w /\ heap (rendered w) = heap w /\
  effect (rendered w) = effect w /\ unmounted (rendered w) = unmounted w /\
  trace (rendered w) = trace w.
Proof.
  unfold rendered. destruct (unmounted w) eqn:E; simpl; auto 10.
Qed.

Lemma rendered_props w : props (rendered w) = props w.
Proof. apply rendered_core. Qed.
Lemma rendered_isReady w : isReady (rendered w) = isReady w.
Proof. apply rendered_core. Qed.
Lemma rendered_currentLocale w : currentLocale (rendered w) = currentLocale w.
Proof. apply rendered_core. Qed.
Lemma rendered_verbaRef w : verbaRef (rendered w) = verbaRef w.
Proof. apply rendered_core. Qed.
Lemma rendered_heap w : heap (rendered w) = heap w.
Proof. apply rendered_core. Qed.
Lemma rendered_effect w : effect (rendered w) = effect w.
Proof. apply rendered_core. Qed.
Lemma rendered_unmounted w : unmounted (rendered w) = unmounted w.
Proof. apply rendered_core. Qed.
Lemma rendered_trace w : trace (rendered w) = trace w.
Proof. apply rendered_core. Qed.

Ltac rendered_fields :=
  rewrite ?rendered_props, ?rendered_isReady, ?rendered_currentLocale,
    ?rendered_verbaRef, ?rendered_heap, ?rendered_effect,
    ?rendered_unmounted, ?rendered_trace.

Lemma rendered_promise w r : promise (rendered w) r = promise w r.
Proof. unfold promise. rewrite rendered_heap. reflexivity. Qed.

(** The memo cell after a render is the old one or a fresh value. *)
Lemma rendered_value_memo w vm :
  unmounted w = false ->
  value_memo (rendered w) = Some vm ->
  value_memo w = Some vm \/
  exists t_id, vm = Build_Memo (t_id, currentLocale w, isReady w)
                      (computed_value t_id w).
Proof.
  intros Hu. unfold rendered. rewrite Hu. simpl.
  destruct (value_memo w) as [m|].
  - destruct (decide _); intros [= <-]; eauto.
  - intros [= <-]; eauto.
Qed.

(** ** The invariant *)

Lemma stable_rendered w : stable w -> stable (rendered w).
Proof.
  intros S. destruct (unmounted w) eqn:Hu.
  { unfold rendered. rewrite Hu. exact S. }
  destruct S as [Sr Se Sn Su Sf Sy Sm].
  split; rendered_fields; auto.
  - intros _ En. split; [apply Sf; auto|].
    intros vm Ev. destruct (rendered_value_memo w vm Hu Ev) as [E|[t_id ->]].
    + apply Sf; auto.
    + simpl. rewrite (Sn En). auto.
  - intros r. rewrite rendered_promise. auto.
  - intros vm Ev. destruct (rendered_value_memo w vm Hu Ev) as [E|[t_id ->]].
    + apply Sm; auto.
    + simpl. auto.
Qed.

Lemma stable_after_effect p w d :
  stable w -> unmounted w = false ->
  stable (with_effect (Some (d, length (heap w))) (after_effect p w)).
Proof.
  intros [Sr Se Sn Su Sf Sy Sm] Hu. split; simpl.
  - intros r [= <-]. rewrite length_app. simpl. lia.
  - intros d' r [= <- <-]. auto.
  - discriminate.
  - congruence.
  - discriminate.
  - discriminate.
  - exact Sm.
Qed.

Lemma stable_after_cleanup r w d :
  stable w -> effect w = Some (d, r) ->
  after_cleanup r w = log (AStoreRef None) (with_verbaRef None w).
Proof.
  intros S E. unfold after_cleanup.
  destruct (c_effect w S d r E) as [_ Er].
  rewrite decide_True by exact Er. reflexivity.
Qed.

Lemma stable_flushed w : stable w -> stable (flushed w).
Proof.
  intros S. unfold flushed. destruct (unmounted w) eqn:Hu; [exact S|].
  destruct (effect w) as [[d r]|] eqn:E.
  - destruct (decide _); [exact S|].
    rewrite (stable_after_cleanup r w d S E).
    destruct S as [Sr Se Sn Su Sf Sy Sm]. split; simpl.
    + intros r' [= <-]. rewrite length_app. simpl. lia.
    + intros d' r' [= <- <-]. auto.
    + discriminate.
    + congruence.
    + discriminate.
    + discriminate.
    + exact Sm.
  - apply stable_after_effect; assumption.
Qed.

Lemma after_cleanup_fixed r w :
  props (after_cleanup r w) = props w /\
  unmounted (after_cleanup r w) = unmounted w /\
  heap (after_cleanup r w) = heap w /\
  isReady (after_cleanup r w) = isReady w /\
  currentLocale (after_cleanup r w) = currentLocale w /\
  t_memo (after_cleanup r w) = t_memo w /\
  value_memo (after_cleanup r w) = value_memo w.
Proof. unfold after_cleanup. destruct (decide _); simpl; auto 10. Qed.

Lemma flushed_effect w :
  stable w -> unmounted w = false ->
  exists r, effect (flushed w) = Some (props w, r) /\
            props (flushed w) = props w /\ unmounted (flushed w) = false.
Proof.
  intros S Hu. unfold flushed. rewrite Hu.
  destruct (effect w) as [[d r]|] eqn:E.
  - destruct (decide (d = props w)) as [Ed|Ed].
    + exists r. subst d. auto.
    + destruct (after_cleanup_fixed r w) as (Ep & Eu & _).
      eexists. simpl. rewrite Ep, Eu. auto.
  - eexists. simpl. auto.
Qed.

Lemma stable_with_props p w : stable w -> stable (with_props p w).
Proof. intros [Sr Se Sn Su Sf Sy Sm]. split; simpl; auto. Qed.

Lemma consistent_commit w : stable w -> consistent (rendered (flushed w)).
Proof.
  intros S. pose proof (stable_flushed w S) as S'.
  split.
  - apply stable_rendered, S'.
  - rendered_fields. intros d r E.
    destruct (c_effect _ S' d r E) as [Hu' _].
    assert (Hu : unmounted w = false).
    { destruct (unmounted w) eqn:Eu; [|reflexivity].
      unfold flushed in Hu'. rewrite Eu in Hu'. congruence. }
    destruct (flushed_effect w S Hu) as (r' & E' & Ep & _).
    congruence.
  - rendered_fields. intros Hu.
    apply synced_rendered; [exact Hu | apply (c_memo _ S')].
Qed.

Lemma consistent_rendered w :
  stable w -> (forall d r, effect w = Some (d, r) -> d = props w) ->
  consistent (rendered w).
Proof.
  intros S D. split.
  - apply stable_rendered, S.
  - rendered_fields. exact D.
  - rendered_fields. intros Hu.
    apply synced_rendered; [exact Hu | apply (c_memo _ S)].
Qed.

(** Overwriting the object at [r] by one with the same promise state
    keeps every promise. *)
Lemma promise_insert_same w r r' (i j : Instance V) :
  heap w !! r = Some i -> ready j = ready i ->
  ready <$> (<[r := j]> (heap w)) !! r' = promise w r'.
Proof.
  intros E Hr. unfold promise.
  destruct (decide (r = r')) as [<-|Hne].
  - rewrite list_lookup_insert_eq by (eapply lookup_lt_Some; eauto).
    rewrite E. simpl. congruence.
  - rewrite list_lookup_insert_ne by exact Hne. reflexivity.
Qed.

Lemma promise_settled_other w r r' outcome :
  r <> r' -> promise (settled r outcome w) r' = promise w r'.
Proof.
  intros Hne. unfold promise, settled.
  destruct (heap w !! r) as [i|]; [|reflexivity].
  destruct (ready i); try reflexivity.
  simpl. rewrite list_lookup_insert_ne by exact Hne. reflexivity.
Qed.

(** A promise settles once: a settled promise keeps its state. *)
Lemma promise_settled_kept w r r' outcome s :
  promise w r' = Some s -> s <> Pending ->
  promise (settled r outcome w) r' = Some s.
Proof.
  intros Hp Hs. destruct (decide (r = r')) as [<-|Hne].
  - unfold settled.
    destruct (heap w !! r) as [i|] eqn:E; [|exact Hp].
    unfold promise in Hp. rewrite E in Hp. simpl in Hp.
    destruct (ready i) eqn:Er; [congruence| |];
      unfold promise; rewrite E; simpl; congruence.
  - rewrite promise_settled_other by exact Hne. exact Hp.
Qed.

Lemma promise_settled_pending w r outcome :
  promise w r = Some Pending ->
  promise (settled r outcome w) r = Some outcome.
Proof.
  unfold promise, settled. destruct (heap w !! r) as [i|] eqn:E; [|discriminate].
  simpl. intros [= Er]. rewrite Er. simpl.
  rewrite list_lookup_insert_eq by (eapply lookup_lt_Some; eauto).
  reflexivity.
Qed.

Lemma triggers_pending w r :
  triggers r w = true -> promise w r = Some Pending.
Proof.
  unfold triggers, promise. destruct (heap w !! r) as [i|]; [|discriminate].
  simpl. destruct (ready i); try discriminate. reflexivity.
Qed.

Lemma settled_core r outcome w :
  props (settled r outcome w) = props w /\
  isReady (settled r outcome w) = isReady w /\
  currentLocale (settled r outcome w) = currentLocale w /\
  verbaRef (settled r outcome w) = verbaRef w /\
  length (heap (settled r outcome w)) = length (heap w) /\
  effect (settled r outcome w) = effect w /\
  unmounted (settled r outcome w) = unmounted w /\
  t_memo (settled r outcome w) = t_memo w /\
  value_memo (settled r outcome w) = value_memo w /\
  trace (settled r outcome w) = trace w.
Proof.
  unfold settled. destruct (heap w !! r) as [i|]; [|auto 12].
  destruct (ready i); simpl; rewrite ?length_insert; auto 12.
Qed.

Lemma stable_settled r outcome w :
  stable w -> stable (settled r outcome w).
Proof.
  intros [Sr Se Sn Su Sf Sy Sm].
  destruct (settled_core r outcome w)
    as (Ep & Ei & El & Ev & Eh & Ee & Eu & Et & Em & _).
  split; unfold memo_wf; rewrite ?Ei, ?Ev, ?Eh, ?Ee, ?Eu, ?Em; auto.
  intros r' E Hr. apply promise_settled_kept; [auto | discriminate].
Qed.

Lemma stable_called_back r w :
  stable w -> (verbaRef w = Some r -> promise w r = Some Fulfilled) ->
  stable (called_back r w).
Proof.
  intros S Hp. unfold called_back.
  destruct (decide (verbaRef w = Some r)) as [E|E]; [|exact S].
  destruct (heap w !! r) as [i|] eqn:Ei; [|exact S].
  destruct S as [Sr Se Sn Su Sf Sy Sm]. split; simpl; auto.
  - intros _ En. rewrite (Sn En) in E. discriminate.
  - intros r' E' _. assert (r' = r) as -> by congruence.
    apply Hp, E.
Qed.

Lemma stable_locale_set x w : stable w -> stable (locale_set x w).
Proof.
  intros S. unfold locale_set.
  destruct (verbaRef w) as [r|] eqn:E; [|exact S].
  destruct (heap w !! r) as [i|] eqn:Ei; [|exact S].
  destruct S as [Sr Se Sn Su Sf Sy Sm]. split; simpl.
  - intros r' E'. rewrite length_insert. auto.
  - exact Se.
  - exact Sn.
  - exact Su.
  - intros Hu En. rewrite (Sn En) in E. discriminate.
  - intros r' E' Hr. unfold promise. simpl.
    rewrite (promise_insert_same w r r' i) by (simpl; auto). auto.
  - exact Sm.
Qed.

Lemma stable_client_internal r v w :
  stable w -> stable (next (ClientInternal r v) w).
Proof.
  intros S. simpl. destruct (heap w !! r) as [i|] eqn:Ei; [|exact S].
  destruct S as [Sr Se Sn Su Sf Sy Sm]. split; simpl.
  - intros r' E'. rewrite length_insert. auto.
  - exact Se.
  - exact Sn.
  - exact Su.
  - exact Sf.
  - intros r' E' Hr. unfold promise. simpl.
    rewrite (promise_insert_same w r r' i) by (simpl; auto). auto.
  - exact Sm.
Qed.

Lemma stable_torn_down w :
  stable w ->
  stable (torn_down w) /\ unmounted (torn_down w) = true /\
  verbaRef (torn_down w) = None.
Proof.
  intros S. unfold torn_down. destruct (unmounted w) eqn:Hu.
  { split; [exact S|]. split; [exact Hu|].
    apply (c_no_effect w S), (c_unmounted w S Hu). }
  destruct (flushed_effect w S Hu) as (r & E & _ & _). rewrite E.
  pose proof (stable_flushed w S) as S'.
  rewrite (stable_after_cleanup r _ _ S' E).
  destruct S' as [Sr Se Sn Su Sf Sy Sm].
  split; [|split; reflexivity].
  split; simpl; try discriminate; auto.
Qed.

Lemma called_back_fixed r w :
  props (called_back r w) = props w /\ effect (called_back r w) = effect w /\
  unmounted (called_back r w) = unmounted w /\
  verbaRef (called_back r w) = verbaRef w /\
  heap (called_back r w) = heap w.
Proof.
  unfold called_back. destruct (decide _); [|auto].
  destruct (heap w !! r); simpl; auto.
Qed.

Lemma locale_set_fixed x w :
  props (locale_set x w) = props w /\ effect (locale_set x w) = effect w /\
  unmounted (locale_set x w) = unmounted w /\
  verbaRef (locale_set x w) = verbaRef w /\
  isReady (locale_set x w) = isReady w.
Proof.
  unfold locale_set. destruct (verbaRef w) as [r|] eqn:E; [|auto].
  destruct (heap w !! r); simpl; auto.
Qed.

Lemma synced_same w w' :
  t_memo w' = t_memo w -> value_memo w' = value_memo w ->
  currentLocale w' = currentLocale w -> isReady w' = isReady w ->
  synced w -> synced w'.
Proof.
  intros Et Ev El Ei (tm & vm & ? & ? & ? & ? & ? & ?).
  exists tm, vm. rewrite Et, Ev, El, Ei. auto 10.
Qed.

Lemma initial_rendered p :
  initial p = Ok (rendered (fresh p : World V)).
Proof.
  unfold initial, exec. rewrite VerbaProvider_run; [reflexivity|].
  intros r. simpl. discriminate.
Qed.

Lemma stable_fresh p : stable (fresh p : World V).
Proof.
  split; simpl; try discriminate.
  - auto.
  - intros _ _. split; [reflexivity | discriminate].
Qed.

Lemma consistent_initial p w : initial p = Ok w -> consistent w.
Proof.
  rewrite initial_rendered. intros [= <-].
  apply consistent_rendered; [apply stable_fresh|].
  simpl. discriminate.
Qed.

Lemma consistent_next e w : consistent w -> consistent (next e w).
Proof.
  intros [S D Y]. destruct e as [|p| |r|r|r v|x]; simpl.
  - apply consistent_commit, S.
  - destruct (unmounted w) eqn:Hu; [split; auto; congruence|].
    apply consistent_commit, stable_rendered, stable_with_props,
      stable_rendered, stable_flushed, S.
  - destruct (stable_torn_down w S) as (S' & Hu & Hr). split; auto.
    + intros d r E. rewrite (c_unmounted _ S' Hu) in E. discriminate.
    + congruence.
  - pose proof (stable_settled r Fulfilled w S) as S1.
    destruct (settled_core r Fulfilled w)
      as (Ep & Ei & El & Ev & Eh & Ee & Eu & Et & Em & _).
    destruct (triggers r w) eqn:T.
    + apply consistent_rendered.
      * apply stable_called_back; [exact S1|]. intros _.
        apply promise_settled_pending, triggers_pending, T.
      * destruct (called_back_fixed r (settled r Fulfilled w))
          as (-> & -> & _). rewrite Ep, Ee. exact D.
    + apply consistent_rendered; [exact S1|]. rewrite Ep, Ee. exact D.
  - destruct (settled_core r Rejected w)
      as (Ep & Ei & El & Ev & Eh & Ee & Eu & Et & Em & _).
    split.
    + apply stable_settled, S.
    + rewrite Ep, Ee. exact D.
    + rewrite Eu. intros Hu. eapply synced_same; eauto.
  - split.
    + apply (stable_client_internal r v w S).
    + destruct (heap w !! r); simpl; exact D.
    + destruct (heap w !! r); simpl; auto.
  - apply consistent_rendered; [apply stable_locale_set, S|].
    destruct (locale_set_fixed x w) as (-> & -> & _). exact D.
Qed.

Lemma consistent_valid w : consistent w -> valid w.
Proof. intros [S _ _]. exact (c_ref w S). Qed.

(** Every reachable world is consistent. *)
Lemma reachable_consistent w : reachable w -> consistent w.
Proof.
  induction 1 as [p w E|e w w' _ IH E].
  - eapply consistent_initial, E.
  - rewrite step_next in E by apply consistent_valid, IH.
    injection E as <-. apply consistent_next, IH.
Qed.

(** No event handler throws in a reachable world. *)
Lemma reachable_step_next e w : reachable w -> step e w = Ok (next e w).
Proof. intros R. apply step_next, consistent_valid, reachable_consistent, R. Qed.

Lemma reachable_next e w : reachable w -> reachable (next e w).
Proof.
  intros R. eapply reachable_step; [exact R|]. apply reachable_step_next, R.
Qed.

Lemma reachable_run es w :
  reachable w -> exists w', run es w = Ok w' /\ reachable w'.
Proof.
  revert w. induction es as [|e es IH]; intros w R; simpl.
  - eauto.
  - rewrite (reachable_step_next e w R). apply IH, reachable_next, R.
Qed.

(** *** What the Provider exposes *)

Lemma provided_synced w :
  consistent w -> unmounted w = false ->
  exists v, provided w = Some v /\ value_locale v = currentLocale w /\
            value_isReady v = isReady w.
Proof.
  intros C Hu. destruct (c_synced w C Hu) as (tm & vm & _ & Ev & _ & _ & El & Er).
  exists (memo_val vm). unfold provided. rewrite Hu, Ev. auto.
Qed.

Lemma stored_mounted w r :
  stable w -> verbaRef w = Some r -> unmounted w = false.
Proof.
  intros S E. destruct (unmounted w) eqn:Hu; [|reflexivity].
  rewrite (c_no_effect w S (c_unmounted w S Hu)) in E. discriminate.
Qed.

(** *** After the teardown nothing moves *)

Lemma rendered_unmounted_id w : unmounted w = true -> rendered w = w.
Proof. intros Hu. unfold rendered. rewrite Hu. reflexivity. Qed.

Lemma next_frozen e w :
  unmounted w = true -> verbaRef w = None -> frozen w (next e w).
Proof.
  intros Hu Hr. unfold frozen.
  destruct e as [|p| |r|r|r v|x]; simpl.
  - unfold flushed. rewrite Hu. rewrite rendered_unmounted_id by exact Hu.
    auto 10.
  - rewrite Hu. auto 10.
  - unfold torn_down. rewrite Hu. auto 10.
  - destruct (settled_core r Fulfilled w)
      as (Ep & Ei & El & Ev & Eh & Ee & Eu & Et & Em & Ea).
    assert (Ec : called_back r (settled r Fulfilled w) = settled r Fulfilled w).
    { unfold called_back. rewrite decide_False; [reflexivity|]. congruence. }
    rewrite Ec. destruct (triggers r w);
      rewrite rendered_unmounted_id by congruence;
      rewrite Ei, El, Ev, Eh, Eu, Et, Em, Ea; auto 10.
  - destruct (settled_core r Rejected w)
      as (Ep & Ei & El & Ev & Eh & Ee & Eu & Et & Em & Ea).
    rewrite Ei, El, Ev, Eh, Eu, Et, Em, Ea; auto 10.
  - destruct (heap w !! r); simpl; rewrite ?length_insert; auto 10.
  - unfold locale_set. rewrite Hr.
    rewrite rendered_unmounted_id by exact Hu. auto 10.
Qed.

Lemma run_frozen es w :
  unmounted w = true -> verbaRef w = None ->
  exists w', run es w = Ok w' /\ frozen w w'.
Proof.
  revert w. induction es as [|e es IH]; intros w Hu Hr; simpl.
  - exists w. unfold frozen. auto 10.
  - rewrite step_next by (intros r; rewrite Hr; discriminate).
    destruct (next_frozen e w Hu Hr) as (Hu' & Hr' & Eh & Ei & El & Et & Em & Ea).
    destruct (IH (next e w) Hu' Hr')
      as (w' & Erun & Hu'' & Hr'' & Eh' & Ei' & El' & Et' & Em' & Ea').
    exists w'. unfold frozen. split; [exact Erun|].
    repeat split; congruence.
Qed.

(** *** Promises *)

Lemma promise_app w r s (l : list (Instance V)) :
  promise w r = Some s -> ready <$> (heap w ++ l)%list !! r = Some s.
Proof.
  unfold promise. intros E.
  destruct (heap w !! r) as [i|] eqn:Ei; [|discriminate].
  rewrite (lookup_app_l_Some _ _ _ _ Ei). exact E.
Qed.

Lemma promise_flushed w r s :
  promise w r = Some s -> promise (flushed w) r = Some s.
Proof.
  intros E. unfold flushed. destruct (unmounted w); [exact E|].
  destruct (effect w) as [[d a]|].
  - destruct (decide _); [exact E|].
    unfold promise. simpl. apply promise_app.
    unfold promise. destruct (after_cleanup_fixed a w) as (_ & _ & -> & _).
    exact E.
  - unfold promise. simpl. apply promise_app, E.
Qed.

Lemma promise_called_back w r r' :
  promise (called_back r w) r' = promise w r'.
Proof.
  unfold promise. destruct (called_back_fixed r w) as (_ & _ & _ & _ & ->).
  reflexivity.
Qed.

Lemma promise_locale_set x w r' :
  promise (locale_set x w) r' = promise w r'.
Proof.
  unfold locale_set. destruct (verbaRef w) as [r|]; [|reflexivity].
  destruct (heap w !! r) as [i|] eqn:Ei; [|reflexivity].
  unfold promise at 1. simpl.
  apply (promise_insert_same w r r' i); [exact Ei | reflexivity].
Qed.

(** A settled promise keeps its state through every event. *)
Lemma promise_next_kept e w r s :
  promise w r = Some s -> s <> Pending -> promise (next e w) r = Some s.
Proof.
  intros E Hs. destruct e as [|p| |a|a|a v|x]; simpl.
  - rewrite rendered_promise. apply promise_flushed, E.
  - destruct (unmounted w); [exact E|].
    rewrite rendered_promise. apply promise_flushed.
    rewrite rendered_promise.
    change (promise (rendered (flushed w)) r = Some s).
    rewrite rendered_promise. apply promise_flushed, E.
  - unfold torn_down. destruct (unmounted w); [exact E|].
    apply promise_flushed in E.
    destruct (effect (flushed w)) as [[d b]|]; unfold promise; simpl.
    + destruct (after_cleanup_fixed b (flushed w)) as (_ & _ & -> & _).
      exact E.
    + exact E.
  - rewrite rendered_promise.
    destruct (triggers a w); rewrite ?promise_called_back;
      apply promise_settled_kept; assumption.
  - apply promise_settled_kept; assumption.
  - destruct (heap w !! a) as [i|] eqn:Ei; [|exact E].
    unfold promise at 1. simpl.
    rewrite (promise_insert_same w a r i) by (simpl; auto). exact E.
  - rewrite rendered_promise, promise_locale_set. exact E.
Qed.

(** *** How [isReady] can change *)

Lemma isReady_flushed w :
  isReady (flushed w) = true -> isReady w = true /\ flushed w = w.
Proof.
  unfold flushed. destruct (unmounted w); [auto|].
  destruct (effect w) as [[d a]|].
  - destruct (decide _); [auto|]. simpl. discriminate.
  - simpl. discriminate.
Qed.

Lemma isReady_torn_down w : isReady (torn_down w) = true -> isReady w = true.
Proof.
  unfold torn_down. destruct (unmounted w); [auto|].
  destruct (effect (flushed w)) as [[d a]|]; simpl.
  - destruct (after_cleanup_fixed a (flushed w)) as (_ & _ & _ & -> & _).
    intros E. apply isReady_flushed, E.
  - intros E. apply isReady_flushed, E.
Qed.

(** Only the readiness callback of the stored instance, run when its
    promise is fulfilled, turns [isReady] on. *)
Lemma flip_by_callback e w :
  isReady w = false -> isReady (next e w) = true ->
  exists r, e = Resolve r /\ triggers r w = true /\
            verbaRef w = Some r /\ verbaRef (next e w) = Some r.
Proof.
  intros Hf. destruct e as [|p| |r|r|r v|x]; simpl.
  - rewrite rendered_isReady. intros E.
    apply isReady_flushed in E. destruct E; congruence.
  - destruct (unmounted w); [congruence|].
    rewrite rendered_isReady. intros E. apply isReady_flushed in E.
    destruct E as [E _]. rewrite rendered_isReady in E.
    change (isReady (rendered (flushed w)) = true) in E.
    rewrite rendered_isReady in E.
    apply isReady_flushed in E. destruct E; congruence.
  - intros E. apply isReady_torn_down in E. congruence.
  - destruct (settled_core r Fulfilled w)
      as (Ep & Ei & El & Ev & Eh & Ee & Eu & Et & Em & Ea).
    rewrite rendered_isReady, rendered_verbaRef.
    destruct (triggers r w) eqn:T; [|congruence].
    destruct (called_back_fixed r (settled r Fulfilled w))
      as (_ & _ & _ & Ev' & _).
    unfold called_back at 1.
    destruct (decide (verbaRef (settled r Fulfilled w) = Some r)) as [E|E];
      [|congruence].
    intros _. exists r. repeat split; congruence.
  - destruct (settled_core r Rejected w) as (_ & -> & _). congruence.
  - destruct (heap w !! r); simpl; congruence.
  - rewrite rendered_isReady.
    destruct (locale_set_fixed x w) as (_ & _ & _ & _ & ->). congruence.
Qed.

(** The callback of an instance that is not the stored one does nothing. *)
Lemma next_Resolve_stale w r :
  consistent w -> verbaRef w <> Some r ->
  next (Resolve r) w = settled r Fulfilled w.
Proof.
  intros C Hne. simpl.
  destruct (settled_core r Fulfilled w)
    as (Ep & Ei & El & Ev & Eh & Ee & Eu & Et & Em & Ea).
  assert (Ec : called_back r (settled r Fulfilled w) = settled r Fulfilled w).
  { unfold called_back. rewrite decide_False; [reflexivity|]. congruence. }
  rewrite Ec. destruct (unmounted w) eqn:Hu.
  - destruct (triggers r w); apply rendered_unmounted_id; congruence.
  - assert (Y : synced (settled r Fulfilled w))
      by (eapply synced_same; eauto; apply (c_synced w C Hu)).
    destruct (triggers r w); apply rendered_synced, Y.
Qed.

Lemma resolve_stale w r :
  reachable w -> verbaRef w <> Some r ->
  exists w', step (Resolve r) w = Ok w' /\
    isReady w' = isReady w /\ currentLocale w' = currentLocale w /\
    verbaRef w' = verbaRef w /\ provided w' = provided w /\
    trace w' = trace w.
Proof.
  intros R Hne. pose proof (reachable_consistent w R) as C.
  exists (settled r Fulfilled w).
  rewrite (reachable_step_next _ _ R), (next_Resolve_stale w r C Hne).
  destruct (settled_core r Fulfilled w)
    as (Ep & Ei & El & Ev & Eh & Ee & Eu & Et & Em & Ea).
  unfold provided. rewrite Eu, Em. auto 10.
Qed.

(** The callback of the stored instance mirrors the client's locale and
    turns [isReady] on. *)
Lemma resolve_live w r i :
  verbaRef w = Some r -> heap w !! r = Some i ->
  ready i = Pending -> then_attached i = true ->
  isReady (next (Resolve r) w) = true /\
  currentLocale (next (Resolve r) w) = verba_getLocale (client i) /\
  verbaRef (next (Resolve r) w) = Some r /\
  trace (next (Resolve r) w) =
    (trace w ++ [ASetCurrentLocale (verba_getLocale (client i));
                 ASetIsReady true])%list.
Proof.
  intros Er Ei Ep Ea. simpl.
  assert (T : triggers r w = true) by (unfold triggers; rewrite Ei, Ep; exact Ea).
  rewrite T. rendered_fields.
  assert (Es : settled r Fulfilled w =
               with_heap (<[r := {| client := client i; ready := Fulfilled;
                                    then_attached := then_attached i |}]>
                            (heap w)) w)
    by (unfold settled; rewrite Ei, Ep; reflexivity).
  rewrite Es. unfold called_back.
  cbn [verbaRef with_heap heap].
  rewrite decide_True by exact Er.
  rewrite list_lookup_insert_eq by (eapply lookup_lt_Some; eauto).
  cbn. rewrite <- app_assoc. auto.
Qed.

(** *** A change of configuration *)

Lemma synced_with_props p w : synced w -> synced (with_props p w).
Proof. apply synced_same; reflexivity. Qed.

Lemma next_Render_change w p d a :
  consistent w -> effect w = Some (d, a) -> p <> d ->
  next (Render p) w =
  rendered
    (with_effect (Some (p, length (heap w)))
       (after_effect p
          (log (AStoreRef None) (with_verbaRef None (with_props p w))))).
Proof.
  intros C E Hne.
  destruct (c_effect w (c_stable w C) d a E) as [Hu Er].
  pose proof (c_deps w C d a E) as Ed.
  simpl. rewrite Hu.
  assert (F : flushed w = w).
  { unfold flushed. rewrite Hu, E. rewrite decide_True by exact Ed.
    reflexivity. }
  rewrite F, (rendered_synced w (c_synced w C Hu)).
  rewrite (rendered_synced _ (synced_with_props p w (c_synced w C Hu))).
  f_equal. unfold flushed. cbn [unmounted with_props effect props].
  rewrite Hu, E. rewrite decide_False by congruence.
  unfold after_cleanup. cbn [verbaRef with_props].
  rewrite decide_True by exact Er. reflexivity.
Qed.

(** The world a change of configuration leads to. *)
Lemma config_change w p d a :
  reachable w -> effect w = Some (d, a) -> p <> d ->
  exists w',
    step (Render p) w = Ok w' /\ reachable w' /\
    props w' = p /\ isReady w' = false /\
    currentLocale w' = currentLocale w /\
    verbaRef w' = Some (length (heap w)) /\
    heap w' = (heap w ++ [new_instance p])%list /\
    effect w' = Some (p, length (heap w)) /\
    unmounted w' = false /\
    trace w' =
      (trace w ++ [AStoreRef None; ASetIsReady false;
                   ANewVerba p (length (heap w));
                   AStoreRef (Some (length (heap w)));
                   AReadyThen (length (heap w))])%list.
Proof.
  intros R E Hne. pose proof (reachable_consistent w R) as C.
  destruct (c_effect w (c_stable w C) d a E) as [Hu Er].
  exists (next (Render p) w). split; [apply reachable_step_next, R|].
  split; [apply reachable_next, R|].
  rewrite (next_Render_change w p d a C E Hne). rendered_fields.
  cbn [props isReady currentLocale verbaRef heap effect unmounted trace
       with_effect after_effect log with_verbaRef with_props].
  rewrite <- app_assoc. auto 10.
Qed.

Lemma flushed_id w d a :
  consistent w -> effect w = Some (d, a) -> flushed w = w.
Proof.
  intros C E. destruct (c_effect w (c_stable w C) d a E) as [Hu _].
  unfold flushed. rewrite Hu, E.
  rewrite decide_True by exact (c_deps w C d a E). reflexivity.
Qed.

Lemma stored_effect w r :
  stable w -> verbaRef w = Some r -> exists d, effect w = Some (d, r).
Proof.
  intros S E. destruct (effect w) as [[d a]|] eqn:Ee.
  - destruct (c_effect w S d a Ee) as [_ Ea]. exists d. congruence.
  - rewrite (c_no_effect w S Ee) in E. discriminate.
Qed.

Lemma currentLocale_flushed w : currentLocale (flushed w) = currentLocale w.
Proof.
  unfold flushed. destruct (unmounted w); [reflexivity|].
  destruct (effect w) as [[d a]|]; [|reflexivity].
  destruct (decide _); [reflexivity|]. simpl.
  apply after_cleanup_fixed.
Qed.

Lemma currentLocale_quiet e w :
  quiet e = true -> currentLocale (next e w) = currentLocale w.
Proof.
  destruct e as [|p| |r|r|r v|x]; simpl; try discriminate; intros _.
  - rewrite rendered_currentLocale. apply currentLocale_flushed.
  - destruct (unmounted w); [reflexivity|].
    rewrite rendered_currentLocale, currentLocale_flushed,
      rendered_currentLocale.
    change (currentLocale (rendered (flushed w)) = currentLocale w).
    rewrite rendered_currentLocale. apply currentLocale_flushed.
  - unfold torn_down. destruct (unmounted w); [reflexivity|].
    destruct (effect (flushed w)) as [[d a]|]; simpl.
    + destruct (after_cleanup_fixed a (flushed w))
        as (_ & _ & _ & _ & -> & _).
      apply currentLocale_flushed.
    + apply currentLocale_flushed.
  - apply settled_core.
  - destruct (heap w !! r); reflexivity.
Qed.




(** ** The claims *)

Lemma next_ClientInternal w r v i :
  heap w !! r = Some i ->
  next (ClientInternal r v) w =
  with_heap (<[r := {| client := v; ready := ready i;
                       then_attached := then_attached i |}]> (heap w)) w.
Proof. intros E. simpl. rewrite E. reflexivity. Qed.

(** C1.  Two configuration changes in quick succession: the Provider holds
    the client [a] of configuration A and the configuration changes to B,
    which leaves A's promise as it was.  Both clients then go on with their
    own initialisation (reaching the states [va] and [vb]), B's client
    resolves its readiness and A's client resolves afterwards.  At the end
    [isReady] is true and the current locale, in the state and in the
    exposed value, is the one B's client reports: the late callback of A
    changes nothing.  More generally, the readiness callback of an instance
    that is not the stored one leaves [isReady], [currentLocale] and the
    exposed value untouched. *)
Theorem stale_readiness_never_wins w pA pB a (va vb : V) :
  reachable w -> effect w = Some (pA, a) -> pB <> pA ->
  (exists wB b w',
     step (Render pB) w = Ok wB /\ verbaRef wB = Some b /\ b <> a /\
     promise wB a = promise w a /\ promise wB b = Some Pending /\
     run [ClientInternal a va; ClientInternal b vb; Resolve b; Resolve a] wB
       = Ok w' /\
     isReady w' = true /\
     currentLocale w' = verba_getLocale vb /\
     verbaRef w' = Some b /\
     exists v, provided w' = Some v /\
       value_locale v = verba_getLocale vb /\ value_isReady v = true) /\
  (forall w0 r, reachable w0 -> verbaRef w0 <> Some r ->
     exists w', step (Resolve r) w0 = Ok w' /\
       isReady w' = isReady w0 /\ currentLocale w' = currentLocale w0 /\
       provided w' = provided w0).
Proof.
  intros R E Hne. split.
  - pose proof (reachable_consistent w R) as C.
    destruct (c_effect w (c_stable w C) pA a E) as [Hu Ea].
    pose proof (c_ref w (c_stable w C) a Ea) as La.
    destruct (allocated_lookup w a La) as [ia Eia].
    destruct (config_change w pB pA a R E Hne)
      as (wB & SB & RB & _ & _ & _ & EvB & EhB & _ & _ & _).
    set (b := length (heap w)) in *.
    assert (Hba : b <> a) by lia.
    assert (EaB : heap wB !! a = Some ia)
      by (rewrite EhB; apply lookup_app_l_Some, Eia).
    assert (EbB : heap wB !! b = Some (new_instance pB))
      by (rewrite EhB; apply list_lookup_middle; reflexivity).
    (* the clients' own activity *)
    pose proof (next_ClientInternal wB a va ia EaB) as N1.
    set (w1 := next (ClientInternal a va) wB) in *.
    pose proof (reachable_next (ClientInternal a va) wB RB) as R1.
    fold w1 in R1.
    assert (Eb1 : heap w1 !! b = Some (new_instance pB)).
    { rewrite N1. cbn [heap with_heap].
      rewrite list_lookup_insert_ne by congruence. exact EbB. }
    pose proof (next_ClientInternal w1 b vb _ Eb1) as N2.
    set (w2 := next (ClientInternal b vb) w1) in *.
    pose proof (reachable_next (ClientInternal b vb) w1 R1) as R2.
    fold w2 in R2.
    assert (Ev2 : verbaRef w2 = Some b) by (rewrite N2, N1; exact EvB).
    assert (Eb2 : heap w2 !! b =
                  Some {| client := vb; ready := Pending;
                          then_attached := true |}).
    { rewrite N2. cbn [heap with_heap].
      apply list_lookup_insert_eq. eapply lookup_lt_Some, Eb1. }
    (* B resolves, then A *)
    destruct (resolve_live w2 b _ Ev2 Eb2 eq_refl eq_refl)
      as (Ei3 & El3 & Ev3 & _).
    set (w3 := next (Resolve b) w2) in *.
    pose proof (reachable_next (Resolve b) w2 R2) as R3. fold w3 in R3.
    assert (Hne3 : verbaRef w3 <> Some a) by congruence.
    destruct (resolve_stale w3 a R3 Hne3)
      as (w4 & S4 & Ei4 & El4 & Ev4 & Ep4 & _).
    pose proof (reachable_consistent w3 R3) as C3.
    destruct (provided_synced w3 C3 (stored_mounted w3 b (c_stable w3 C3) Ev3))
      as (v & Epv & Elv & Eiv).
    exists wB, b, w4.
    split; [exact SB|]. split; [exact EvB|]. split; [exact Hba|].
    split; [unfold promise; rewrite EaB, Eia; reflexivity|].
    split.
    { unfold promise.
      transitivity (ready <$> Some (new_instance pB));
        [f_equal; exact EbB | reflexivity]. }
    split.
    { cbn [run].
      rewrite (reachable_step_next _ _ RB). fold w1.
      rewrite (reachable_step_next _ _ R1). fold w2.
      rewrite (reachable_step_next _ _ R2). fold w3.
      rewrite S4. reflexivity. }
    split; [congruence|]. split; [cbn [client] in El3; congruence|].
    split; [congruence|].
    exists v. rewrite Ep4. cbn [client] in El3.
    split; [exact Epv|]. split; congruence.
  - intros w0 r R0 Hr.
    destruct (resolve_stale w0 r R0 Hr) as (w' & S & Ei & El & _ & Ep & _).
    eauto 10.
Qed.

(** *** An instance that left the ref cell never comes back *)











(** C8.  A change of configuration, from the props [d] of the mounted
    effect to different props [p], performs exactly these operations, in
    this order: the cleanup of the old effect clears the ref cell, then
    [isReady] is set to false, a client is constructed from [p], it is
    stored in the ref cell, and its readiness is requested with a
    callback.  The new client is a fresh object appended to the heap, the
    old objects are unchanged, the step ends with the new promise still
    pending, and the new instance is the only live one.  When that
    configuration is torn down in turn (by an unmount or by another change)
    the instance is no longer live and its callback changes neither
    [isReady] nor [currentLocale].  In every reachable world the stored
    reference is the instance of the mounted effect, if any. *)
Theorem config_change_sequence w p d old :
  reachable w -> effect w = Some (d, old) -> p <> d ->
  (exists w',
     step (Render p) w = Ok w' /\
     trace w' = (trace w ++ [AStoreRef None; ASetIsReady false;
                             ANewVerba p (length (heap w));
                             AStoreRef (Some (length (heap w)));
                             AReadyThen (length (heap w))])%list /\
     heap w' = (heap w ++ [new_instance p])%list /\
     isReady w' = false /\
     verbaRef w' = Some (length (heap w)) /\
     effect w' = Some (p, length (heap w)) /\
     promise w' (length (heap w)) = Some Pending /\
     live w' (length (heap w)) /\ ~ live w' old /\
     (forall r1 r2, live w' r1 -> live w' r2 -> r1 = r2) /\
     forall e, e = Unmount \/ (exists p', e = Render p' /\ p' <> p) ->
       exists w'' w3,
         step e w' = Ok w'' /\ ~ live w'' (length (heap w)) /\
         step (Resolve (length (heap w))) w'' = Ok w3 /\
         isReady w3 = isReady w'' /\ currentLocale w3 = currentLocale w'') /\
  (forall w0, reachable w0 -> verbaRef w0 = snd <$> effect w0).
Proof.
  intros R E Hne. split.
  - pose proof (reachable_consistent w R) as C.
    destruct (c_effect w (c_stable w C) d old E) as [Hu Eo].
    pose proof (c_ref w (c_stable w C) old Eo) as Lo.
    destruct (config_change w p d old R E Hne)
      as (w' & S' & R' & Ep' & Ei' & _ & Ev' & Eh' & Ee' & Eu' & Ea').
    exists w'. split; [exact S'|]. split; [exact Ea'|].
    split; [exact Eh'|]. split; [exact Ei'|]. split; [exact Ev'|].
    split; [exact Ee'|].
    split.
    { unfold promise. rewrite Eh'.
      rewrite list_lookup_middle by reflexivity. reflexivity. }
    split; [exact Ev'|].
    split; [unfold live; rewrite Ev'; intros [= Hx]; lia|].
    split; [unfold live; congruence|].
    intros e He.
    assert (X : exists w'', step e w' = Ok w'' /\ reachable w'' /\
                            verbaRef w'' <> Some (length (heap w))).
    { destruct He as [->|(p' & -> & Hp')].
      - exists (next Unmount w'). split; [apply reachable_step_next, R'|].
        split; [apply reachable_next, R'|].
        destruct (stable_torn_down w'
                    (c_stable w' (reachable_consistent w' R')))
          as (_ & _ & Hn).
        simpl. rewrite Hn. discriminate.
      - destruct (config_change w' p' p _ R' Ee' Hp')
          as (w'' & S'' & R'' & _ & _ & _ & Ev'' & _).
        exists w''. split; [exact S''|]. split; [exact R''|].
        rewrite Ev'', Eh', length_app. simpl. intros [= Hx]. lia. }
    destruct X as (w'' & S'' & R'' & Hn'').
    destruct (resolve_stale w'' _ R'' Hn'') as (w3 & S3 & Ei3 & El3 & _).
    exists w'', w3. auto 10.
  - intros w0 R0. pose proof (reachable_consistent w0 R0) as C0.
    destruct (effect w0) as [[d0 a0]|] eqn:E0; simpl.
    + apply (c_effect w0 (c_stable w0 C0) d0 a0 E0).
    + apply (c_no_effect w0 (c_stable w0 C0) E0).
Qed.

(** C2 (amended).  In every reachable world [t] never throws and leaves
    the world as it is.  While the ref cell is empty (before the first
    effect ran, or after the teardown) it returns the second argument when
    that is a string and the key otherwise; whenever the ref cell holds an
    instance, whether or not that instance's readiness has resolved, it
    returns what the instance's own [t] returns for the same arguments. *)
Theorem t_falls_back_only_without_instance w key d params :
  reachable w ->
  (verbaRef w = None /\ t key d params w = Ok (fallback key d, w)) \/
  (exists r i, verbaRef w = Some r /\ heap w !! r = Some i /\
     t key d params w = Ok (verba_t (client i) key d params, w)).
Proof.
  intros R. pose proof (reachable_consistent w R) as C.
  assert (Rd : readRef w = Ok (verbaRef w, w)) by reflexivity.
  unfold t. rewrite (bind_Ok _ _ _ _ _ Rd).
  destruct (verbaRef w) as [r|] eqn:E.
  - right. destruct (allocated_lookup w r (c_ref w (c_stable w C) r E))
      as [i Ei].
    exists r, i. split; [reflexivity|]. split; [exact Ei|].
    cbn [truthy negb]. rewrite (bind_Ok _ _ _ _ _ Rd).
    apply (invoke_getter (fun v => verba_t v key d params)), Ei.
  - left. split; reflexivity.
Qed.

(** C4.  The Provider is unmounted while the readiness of its stored
    instance [r] is outstanding.  The unmount does not throw and leaves
    [isReady] and [currentLocale] as they were.  Afterwards the fulfilment
    of [r], followed by any further events, never throws, performs no
    operation of the adapter (the trace stays the same) and leaves
    [isReady], [currentLocale] and the memoised value unchanged. *)
Theorem unmount_in_flight_is_silent w r es :
  reachable w -> verbaRef w = Some r -> promise w r = Some Pending ->
  exists wu w',
    step Unmount w = Ok wu /\
    isReady wu = isReady w /\ currentLocale wu = currentLocale w /\
    promise wu r = Some Pending /\
    run (Resolve r :: es) wu = Ok w' /\
    isReady w' = isReady wu /\ currentLocale w' = currentLocale wu /\
    value_memo w' = value_memo wu /\ trace w' = trace wu.
Proof.
  intros R Er Ep. pose proof (reachable_consistent w R) as C.
  destruct (stored_effect w r (c_stable w C) Er) as [d Ee].
  pose proof (flushed_id w d r C Ee) as F.
  destruct (c_effect w (c_stable w C) d r Ee) as [Hu _].
  destruct (stable_torn_down w (c_stable w C)) as (_ & Hu' & Hr').
  destruct (run_frozen (Resolve r :: es) (torn_down w) Hu' Hr')
    as (w' & Erun & _ & _ & _ & Ei & El & _ & Em & Ea).
  exists (next Unmount w), w'.
  split; [apply reachable_step_next, R|].
  assert (Et : torn_down w =
               with_unmounted true (with_effect None (after_cleanup r w))).
  { unfold torn_down. rewrite Hu, F, Ee. reflexivity. }
  destruct (after_cleanup_fixed r w) as (_ & _ & Eh & Ei0 & El0 & _).
  simpl next. split; [rewrite Et; exact Ei0|]. split; [rewrite Et; exact El0|].
  split; [rewrite Et; unfold promise; simpl; rewrite Eh; exact Ep|].
  auto 10.
Qed.

Lemma provided_locale_set x w : provided (locale_set x w) = provided w.
Proof.
  unfold provided.
  destruct (locale_set_fixed x w) as (_ & _ & -> & _).
  unfold locale_set. destruct (verbaRef w) as [r|]; [|reflexivity].
  destruct (heap w !! r); reflexivity.
Qed.

(** C5 (amended).  In a reachable world the exposed [setLocale x] never
    throws.  While the ref cell is empty it changes nothing at all.  While
    the ref cell holds an instance, the call itself invokes the instance's
    [setLocale x], touches no other object and requests the state update
    of [currentLocale] to [x] without waiting for the client; the value
    consumers hold is not replaced by the call, so a read of its locale
    right after the call still gives what it gave before.  The render the
    call triggers then supplies a value whose locale is [x], whatever the
    client made of the call. *)
Theorem setLocale_mirrors_on_next_render w x :
  reachable w ->
  (verbaRef w = None /\ setLocale x w = Ok (tt, w) /\
   step (CallSetLocale x) w = Ok w) \/
  (exists r i w1 w',
     verbaRef w = Some r /\ heap w !! r = Some i /\
     setLocale x w = Ok (tt, w1) /\
     heap w1 = <[r := {| client := verba_setLocale x (client i);
                         ready := ready i;
                         then_attached := then_attached i |}]> (heap w) /\
     currentLocale w1 = x /\
     provided w1 = provided w /\
     trace w1 = (trace w ++ [AClientSetLocale r x;
                             ASetCurrentLocale x])%list /\
     exec VerbaProvider w1 = Ok w' /\
     step (CallSetLocale x) w = Ok w' /\
     heap w' = heap w1 /\
     currentLocale w' = x /\
     value_locale <$> provided w' = Some x /\
     isReady w' = isReady w /\ verbaRef w' = Some r /\
     trace w' = trace w1).
Proof.
  intros R. pose proof (reachable_consistent w R) as C.
  pose proof (consistent_valid w C) as Hv.
  destruct (verbaRef w) as [r|] eqn:E.
  - right.
    destruct (allocated_lookup w r (c_ref w (c_stable w C) r E)) as [i Ei].
    pose proof (reachable_consistent _ (reachable_next (CallSetLocale x) w R))
      as C'.
    assert (El : locale_set x w =
      log (ASetCurrentLocale x)
        (with_currentLocale x
           (log (AClientSetLocale r x)
              (with_heap
                 (<[r := {| client := verba_setLocale x (client i);
                            ready := ready i;
                            then_attached := then_attached i |}]>
                    (heap w)) w))))
      by (unfold locale_set; rewrite E, Ei; reflexivity).
    assert (Ev' : verbaRef (next (CallSetLocale x) w) = Some r).
    { simpl. rewrite rendered_verbaRef.
      destruct (locale_set_fixed x w) as (_ & _ & _ & -> & _). exact E. }
    assert (Ec' : currentLocale (next (CallSetLocale x) w) = x).
    { simpl. rewrite rendered_currentLocale, El. reflexivity. }
    destruct (provided_synced _ C' (stored_mounted _ r (c_stable _ C') Ev'))
      as (v & Epv & Elv & _).
    exists r, i, (locale_set x w), (next (CallSetLocale x) w).
    split; [reflexivity|]. split; [exact Ei|].
    split; [apply (setLocale_run x w Hv)|].
    split; [rewrite El; reflexivity|].
    split; [rewrite El; reflexivity|].
    split; [apply provided_locale_set|].
    split; [rewrite El; cbn; rewrite <- app_assoc; reflexivity|].
    split.
    { unfold exec. rewrite VerbaProvider_run by apply valid_locale_set, Hv.
      reflexivity. }
    split; [apply reachable_step_next, R|].
    split; [simpl; apply rendered_heap|].
    split; [exact Ec'|].
    split; [rewrite Epv; simpl; congruence|].
    split; [simpl; rewrite rendered_isReady; apply locale_set_fixed|].
    split; [exact Ev'|].
    simpl. apply rendered_trace.
  - left. split; [reflexivity|]. split.
    + rewrite (setLocale_run x w Hv). unfold locale_set. rewrite E.
      reflexivity.
    + rewrite (reachable_step_next _ _ R). simpl. f_equal.
      unfold locale_set. rewrite E.
      destruct (unmounted w) eqn:Hu.
      * apply rendered_unmounted_id, Hu.
      * apply rendered_synced, (c_synced w C Hu).
Qed.

(** C6.  [useVerba] throws its usage error when there is no enclosing
    Provider element, it throws exactly when the context value it reads is
    the [null] default, and otherwise it returns the value of the nearest
    enclosing Provider element itself; under a [VerbaProvider] in world [w]
    that is the value the Provider supplies. *)
Theorem useVerba_throws_exactly_outside
    (enclosing : list (option VerbaContextValue)) w
    (v : VerbaContextValue) :
  useVerba [] =
    Throw (Error "useVerba must be used within a <VerbaProvider>") /\
  ((exists e, useVerba enclosing = Throw e) <->
     useContext VerbaContext enclosing = None) /\
  useVerba (Some v :: enclosing) = Ok v /\
  useVerba (provided w :: enclosing) =
    match provided w with
    | Some v' => Ok v'
    | None => Throw (Error "useVerba must be used within a <VerbaProvider>")
    end.
Proof.
  split; [reflexivity|]. split; [|split].
  - unfold useVerba. destruct (useContext VerbaContext enclosing) as [c|].
    + split; [intros [e He]; discriminate | discriminate].
    + split; [reflexivity | eauto].
  - reflexivity.
  - unfold useVerba. simpl. destruct (provided w); reflexivity.
Qed.

Lemma run_promise_kept es w r s :
  reachable w -> promise w r = Some s -> s <> Pending ->
  exists w', run es w = Ok w' /\ reachable w' /\ promise w' r = Some s.
Proof.
  revert w. induction es as [|e es IH]; intros w R E Hs; simpl.
  - eauto.
  - rewrite (reachable_step_next e w R).
    apply IH; [apply reachable_next, R | | exact Hs].
    apply promise_next_kept; assumption.
Qed.

(** C7.  The readiness promise of the stored instance [r] rejects while
    it is outstanding.  The step does not throw, performs no operation of
    the adapter, and leaves [isReady] (which is false), [currentLocale] and
    the exposed value as they were: the shared state has no member that
    could carry the error.  From then on, through any events, [isReady] is
    false whenever [r] is still the stored instance. *)
Theorem rejected_readiness_stays_not_ready w r es :
  reachable w -> verbaRef w = Some r -> promise w r = Some Pending ->
  exists w1 w',
    step (Reject r) w = Ok w1 /\
    isReady w = false /\ isReady w1 = false /\
    currentLocale w1 = currentLocale w /\
    provided w1 = provided w /\ trace w1 = trace w /\
    promise w1 r = Some Rejected /\
    run es w1 = Ok w' /\
    (verbaRef w' = Some r -> isReady w' = false).
Proof.
  intros R Er Ep. pose proof (reachable_consistent w R) as C.
  assert (Ef : isReady w = false).
  { destruct (isReady w) eqn:Ei; [|reflexivity].
    pose proof (c_ready w (c_stable w C) r Er Ei). congruence. }
  pose proof (reachable_next (Reject r) w R) as R1.
  assert (Ep1 : promise (next (Reject r) w) r = Some Rejected)
    by (apply promise_settled_pending, Ep).
  destruct (run_promise_kept es _ r Rejected R1 Ep1) as (w' & Erun & R' & Ep');
    [discriminate|].
  destruct (settled_core r Rejected w)
    as (_ & Ei & El & _ & _ & _ & Eu & _ & Em & Ea).
  exists (next (Reject r) w), w'.
  split; [apply reachable_step_next, R|]. split; [exact Ef|].
  split; [simpl; congruence|]. split; [exact El|].
  split; [unfold provided; simpl; rewrite Eu, Em; reflexivity|].
  split; [exact Ea|]. split; [exact Ep1|]. split; [exact Erun|].
  intros Er'. destruct (isReady w') eqn:Ei'; [|reflexivity].
  pose proof (c_ready w' (c_stable w' (reachable_consistent w' R')) r Er' Ei').
  congruence.
Qed.

Lemma run_quiet es w :
  reachable w -> forallb quiet es = true ->
  exists w', run es w = Ok w' /\ reachable w' /\
             currentLocale w' = currentLocale w.
Proof.
  revert w. induction es as [|e es IH]; intros w R Q; simpl.
  - eauto.
  - simpl in Q. apply andb_prop in Q. destruct Q as [Qe Qs].
    rewrite (reachable_step_next e w R).
    destruct (IH (next e w) (reachable_next e w R) Qs) as (w' & Erun & R' & El).
    exists w'. rewrite El, (currentLocale_quiet e w Qe). auto.
Qed.

(** C9.  The first render of a Provider mounted with props [p] has the
    locale prop as current locale when one is given and ["en"] otherwise,
    in its state and in the value it exposes.  This remains so through the
    first effect and through any events other than a readiness resolution
    and a call of [setLocale], as long as the Provider is mounted. *)
Theorem initial_locale_is_prop_or_en p es :
  forallb quiet es = true ->
  exists w0 w : World V,
    initial p = Ok w0 /\
    isReady w0 = false /\ verbaRef w0 = None /\
    currentLocale w0 = default "en" (locale p) /\
    value_locale <$> provided w0 = Some (default "en" (locale p)) /\
    run es w0 = Ok w /\
    currentLocale w = default "en" (locale p) /\
    (unmounted w = false ->
       value_locale <$> provided w = Some (default "en" (locale p))).
Proof.
  intros Q.
  assert (R0 : reachable (rendered (fresh p : World V)))
    by (eapply reachable_initial, initial_rendered).
  destruct (run_quiet es _ R0 Q) as (w & Erun & R & El).
  exists (rendered (fresh p)), w.
  split; [apply initial_rendered|]. split; [reflexivity|].
  split; [reflexivity|]. split; [reflexivity|]. split; [reflexivity|].
  split; [exact Erun|]. split; [exact El|].
  intros Hu.
  destruct (provided_synced w (reachable_consistent w R) Hu)
    as (v & Ev & Elv & _).
  rewrite Ev. simpl. rewrite Elv, El. reflexivity.
Qed.


(** ** Further properties of the Provider *)

(** *** Every client has its callback attached *)

Lemma attached_heap w w' : heap w' = heap w -> attached w -> attached w'.
Proof. unfold attached. intros ->. auto. Qed.

Lemma attached_insert w r (i j : Instance V) :
  attached w -> heap w !! r = Some i -> then_attached j = then_attached i ->
  forall r' i', <[r := j]> (heap w) !! r' = Some i' -> then_attached i' = true.
Proof.
  intros A Ei Ej r' i' E'. destruct (decide (r = r')) as [<-|Hne].
  - rewrite list_lookup_insert_eq in E' by (eapply lookup_lt_Some; eauto).
    injection E' as <-. rewrite Ej. eapply A, Ei.
  - rewrite list_lookup_insert_ne in E' by exact Hne. eapply A, E'.
Qed.

Lemma attached_app w w' p :
  heap w' = (heap w ++ [new_instance p])%list -> attached w -> attached w'.
Proof.
  intros Eh A r i E. rewrite Eh in E.
  apply lookup_app_Some in E. destruct E as [E|[_ E]].
  - eapply A, E.
  - destruct (r - length (heap w)) as [|k]; simpl in E.
    + injection E as <-. reflexivity.
    + discriminate.
Qed.

Lemma flushed_heap w :
  heap (flushed w) = heap w \/
  exists p, heap (flushed w) = (heap w ++ [new_instance p])%list.
Proof.
  unfold flushed. destruct (unmounted w); [auto|].
  destruct (effect w) as [[d a]|].
  - destruct (decide _); [auto|]. right. exists (props w). simpl.
    destruct (after_cleanup_fixed a w) as (_ & _ & -> & _). reflexivity.
  - right. exists (props w). reflexivity.
Qed.

Lemma attached_flushed w : attached w -> attached (flushed w).
Proof.
  intros A. destruct (flushed_heap w) as [E|[p E]].
  - eapply attached_heap; eauto.
  - eapply attached_app; eauto.
Qed.

Lemma attached_rendered w : attached w -> attached (rendered w).
Proof. apply attached_heap, rendered_heap. Qed.

Lemma attached_settled r outcome w :
  attached w -> attached (settled r outcome w).
Proof.
  intros A. unfold settled. destruct (heap w !! r) as [i|] eqn:Ei; [|exact A].
  destruct (ready i); try exact A.
  intros r' i'. simpl. apply (attached_insert w r i); auto.
Qed.

Lemma attached_next e w : attached w -> attached (next e w).
Proof.
  intros A. destruct e as [|p| |r|r|r v|x]; simpl.
  - apply attached_rendered, attached_flushed, A.
  - destruct (unmounted w); [exact A|].
    apply attached_rendered, attached_flushed, attached_rendered.
    eapply attached_heap; [reflexivity|].
    apply attached_rendered, attached_flushed, A.
  - unfold torn_down. destruct (unmounted w); [exact A|].
    pose proof (attached_flushed w A) as A'.
    destruct (effect (flushed w)) as [[d a]|].
    + eapply attached_heap; [|exact A']. simpl. apply after_cleanup_fixed.
    + eapply attached_heap; [|exact A']. reflexivity.
  - apply attached_rendered.
    pose proof (attached_settled r Fulfilled w A) as A'.
    destruct (triggers r w); [|exact A'].
    eapply attached_heap; [|exact A']. apply called_back_fixed.
  - apply attached_settled, A.
  - destruct (heap w !! r) as [i|] eqn:Ei; [|exact A].
    intros r' i'. simpl. apply (attached_insert w r i); auto.
  - apply attached_rendered. unfold locale_set.
    destruct (verbaRef w) as [r|]; [|exact A].
    destruct (heap w !! r) as [i|] eqn:Ei; [|exact A].
    intros r' i'. simpl. apply (attached_insert w r i); auto.
Qed.

Lemma reachable_attached w : reachable w -> attached w.
Proof.
  induction 1 as [p w E|e w w' R IH E].
  - rewrite initial_rendered in E. injection E as <-.
    apply attached_rendered. intros r i. simpl. discriminate.
  - rewrite (reachable_step_next e w R) in E. injection E as <-.
    apply attached_next, IH.
Qed.

(** *** Renders that change nothing *)

Lemma with_props_same w : with_props (props w) w = w.
Proof. destruct w; reflexivity. Qed.

Lemma rerender_same_props_fixed w d a :
  reachable w -> effect w = Some (d, a) -> next (Render d) w = w.
Proof.
  intros R E. pose proof (reachable_consistent w R) as C.
  destruct (c_effect w (c_stable w C) d a E) as [Hu _].
  pose proof (rendered_synced w (c_synced w C Hu)) as Y.
  simpl. rewrite Hu, (flushed_id w d a C E), Y, (c_deps w C d a E).
  rewrite with_props_same, Y, (flushed_id w d a C E), Y. reflexivity.
Qed.

(** X1.  Once the effect is mounted, rendering the Provider again with
    the props the effect was run for changes nothing at all: no cleanup
    runs, no client is constructed, the ref cell, the state, the memoised
    value and the trace are the same world.  Flushing the effects again is
    equally a no-op. *)
Theorem rerender_with_same_props_is_noop w d a :
  reachable w -> effect w = Some (d, a) ->
  step (Render d) w = Ok w /\ step Flush w = Ok w /\
  run [Render d; Flush; Render d] w = Ok w.
Proof.
  intros R E. pose proof (reachable_consistent w R) as C.
  destruct (c_effect w (c_stable w C) d a E) as [Hu _].
  pose proof (c_deps w C d a E) as Ed.
  pose proof (flushed_id w d a C E) as F.
  pose proof (rendered_synced w (c_synced w C Hu)) as Y.
  assert (S1 : step (Render d) w = Ok w).
  { rewrite (reachable_step_next _ _ R). simpl. rewrite Hu, F, Y, Ed.
    rewrite with_props_same, Y, F, Y. reflexivity. }
  assert (S2 : step Flush w = Ok w).
  { rewrite (reachable_step_next _ _ R). simpl. rewrite F, Y. reflexivity. }
  split; [exact S1|]. split; [exact S2|].
  cbn [run]. rewrite S1, S2, S1. reflexivity.
Qed.

(** *** Readiness *)

Lemma called_back_settled_live w r i :
  verbaRef w = Some r -> heap w !! r = Some i -> ready i = Pending ->
  called_back r (settled r Fulfilled w) =
  log (ASetIsReady true)
    (with_isReady true
       (log (ASetCurrentLocale (verba_getLocale (client i)))
          (with_currentLocale (verba_getLocale (client i))
             (with_heap
                (<[r := {| client := client i; ready := Fulfilled;
                           then_attached := then_attached i |}]> (heap w))
                w)))).
Proof.
  intros Er Ei Ep.
  assert (Es : settled r Fulfilled w =
               with_heap (<[r := {| client := client i; ready := Fulfilled;
                                    then_attached := then_attached i |}]>
                            (heap w)) w)
    by (unfold settled; rewrite Ei, Ep; reflexivity).
  rewrite Es. unfold called_back. cbn [verbaRef with_heap heap].
  rewrite decide_True by exact Er.
  rewrite list_lookup_insert_eq by (eapply lookup_lt_Some; eauto).
  reflexivity.
Qed.

Lemma rendered_recomputed w vm :
  unmounted w = false -> value_memo w = Some vm ->
  snd (memo_deps vm) <> isReady w ->
  exists t_id, provided (rendered w) = Some (computed_value t_id w).
Proof.
  intros Hu Ev Hne. unfold provided. rewrite rendered_unmounted, Hu.
  unfold rendered. rewrite Hu. cbn [value_memo with_memos]. rewrite Ev.
  rewrite decide_False; [simpl; eauto|].
  intros Ed. apply Hne. rewrite Ed. reflexivity.
Qed.

Lemma pending_not_ready w r :
  consistent w -> verbaRef w = Some r -> promise w r = Some Pending ->
  isReady w = false.
Proof.
  intros C Er Ep. destruct (isReady w) eqn:Ei; [|reflexivity].
  pose proof (c_ready w (c_stable w C) r Er Ei). congruence.
Qed.

(** X2.  When the readiness promise of the stored client is fulfilled,
    the step does not throw, [isReady] becomes true, [currentLocale]
    becomes what the client's [getLocale()] returns at that moment, and the
    value exposed to consumers is computed anew from the client: its
    [locales] and [defaultLocale] are the client's [getLocales()] and
    [getDefaultLocale()]. *)
Theorem readiness_publishes_client w r i :
  reachable w -> verbaRef w = Some r -> heap w !! r = Some i ->
  ready i = Pending ->
  exists w' v,
    step (Resolve r) w = Ok w' /\
    isReady w' = true /\
    currentLocale w' = verba_getLocale (client i) /\
    promise w' r = Some Fulfilled /\
    provided w' = Some v /\
    value_locale v = verba_getLocale (client i) /\
    value_locales v = verba_getLocales (client i) /\
    value_defaultLocale v = verba_getDefaultLocale (client i) /\
    value_isReady v = true.
Proof.
  intros R Er Ei Ep. pose proof (reachable_consistent w R) as C.
  pose proof (reachable_attached w R r i Ei) as Ea.
  assert (Epr : promise w r = Some Pending)
    by (unfold promise; rewrite Ei; simpl; congruence).
  pose proof (pending_not_ready w r C Er Epr) as Ef.
  pose proof (stored_mounted w r (c_stable w C) Er) as Hu.
  destruct (c_synced w C Hu) as (tm & vm & _ & Ev & _ & Dv & _ & _).
  destruct (resolve_live w r i Er Ei Ep Ea) as (Ei' & El' & Ev' & _).
  assert (T : triggers r w = true)
    by (unfold triggers; rewrite Ei, Ep; exact Ea).
  assert (N : next (Resolve r) w =
              rendered (called_back r (settled r Fulfilled w)))
    by (simpl; rewrite T; reflexivity).
  pose proof (called_back_settled_live w r i Er Ei Ep) as Ec.
  set (w1 := called_back r (settled r Fulfilled w)) in *.
  assert (Hne : snd (memo_deps vm) <> isReady w1).
  { rewrite Dv, Ec. simpl. rewrite Ef. discriminate. }
  assert (Hu1 : unmounted w1 = false) by (rewrite Ec; exact Hu).
  assert (Ev1 : value_memo w1 = Some vm) by (rewrite Ec; exact Ev).
  destruct (rendered_recomputed w1 vm Hu1 Ev1 Hne) as [t_id Epv].
  assert (Er1 : verbaRef w1 = Some r) by (rewrite Ec; exact Er).
  assert (Eh1 : heap w1 !! r =
                Some {| client := client i; ready := Fulfilled;
                        then_attached := then_attached i |}).
  { rewrite Ec. cbn [heap log with_isReady with_currentLocale with_heap].
    apply list_lookup_insert_eq. eapply lookup_lt_Some, Ei. }
  exists (next (Resolve r) w), (computed_value t_id w1).
  split; [apply reachable_step_next, R|]. split; [exact Ei'|].
  split; [exact El'|].
  split.
  { rewrite N, rendered_promise. unfold promise. rewrite Eh1. reflexivity. }
  split; [rewrite N; exact Epv|].
  unfold computed_value. cbn [value_locale value_locales value_defaultLocale
                              value_isReady].
  rewrite Er1, Eh1. cbn [client]. rewrite Ec. auto.
Qed.


(** X4.  After every event, as long as the Provider is mounted, the value
    it supplies to consumers carries exactly the Provider's current
    [currentLocale] and [isReady]: the memoisation never serves a value
    that is out of date in these two members. *)
Theorem exposed_value_tracks_state w :
  reachable w -> unmounted w = false ->
  exists v, provided w = Some v /\
    value_locale v = currentLocale w /\ value_isReady v = isReady w.
Proof.
  intros R Hu. apply provided_synced; [apply reachable_consistent, R|exact Hu].
Qed.

Lemma run_quiet_not_ready es w :
  reachable w -> forallb quiet es = true -> isReady w = false ->
  exists w', run es w = Ok w' /\ reachable w' /\
    currentLocale w' = currentLocale w /\ isReady w' = false.
Proof.
  revert w. induction es as [|e es IH]; intros w R Q Ef; simpl.
  - eauto.
  - simpl in Q. apply andb_prop in Q. destruct Q as [Qe Qs].
    rewrite (reachable_step_next e w R).
    assert (Ef' : isReady (next e w) = false).
    { destruct (isReady (next e w)) eqn:Ei; [|reflexivity].
      destruct (flip_by_callback e w Ef Ei) as (r & -> & _).
      discriminate Qe. }
    destruct (IH (next e w) (reachable_next e w R) Qs Ef')
      as (w' & Erun & R' & El & Ei).
    exists w'. rewrite El, (currentLocale_quiet e w Qe). auto.
Qed.

(** X5.  A change of configuration from the props [d] of the mounted
    effect to other props [p].  The render with the new props, before its
    effects run, supplies the very value consumers had, with the previous
    locale and the previous [isReady].  Its effects then construct the new
    client from [p] (so the new [locale] prop reaches the client) and store
    it, set [isReady] to false and leave [currentLocale] alone.  From then
    on, through any events other than a readiness resolution and a call of
    [setLocale], [currentLocale] is still the previous one and [isReady] is
    false, in the state and in the value supplied while the Provider is
    mounted; and if the new client is then still the stored one, with its
    readiness outstanding, its fulfilment turns [isReady] on and sets
    [currentLocale] to what that client reports. *)
Theorem config_change_keeps_locale w p d a es :
  reachable w -> effect w = Some (d, a) -> p <> d ->
  forallb quiet es = true ->
  exists wmid w' w'',
    exec (bind (modify (with_props p)) (fun _ => VerbaProvider)) w
      = Ok wmid /\
    props wmid = p /\ provided wmid = provided w /\
    reactive wmid = reactive w /\ verbaRef wmid = Some a /\
    exec (bind flush_effects (fun _ => VerbaProvider)) wmid = Ok w' /\
    step (Render p) w = Ok w' /\
    client <$> heap w' !! length (heap w) = Some (verba_new p) /\
    verbaRef w' = Some (length (heap w)) /\
    reactive w' = (currentLocale w, false) /\
    (exists v, provided w' = Some v /\
       value_locale v = currentLocale w /\ value_isReady v = false) /\
    run es w' = Ok w'' /\
    reactive w'' = (currentLocale w, false) /\
    (unmounted w'' = false ->
       exists v, provided w'' = Some v /\
         value_locale v = currentLocale w /\ value_isReady v = false) /\
    (forall i, verbaRef w'' = Some (length (heap w)) ->
       heap w'' !! length (heap w) = Some i -> ready i = Pending ->
       exists w3, step (Resolve (length (heap w))) w'' = Ok w3 /\
         isReady w3 = true /\
         currentLocale w3 = verba_getLocale (client i)).
Proof.
  intros R E Hne Q. pose proof (reachable_consistent w R) as C.
  destruct (c_effect w (c_stable w C) d a E) as [Hu Ea].
  pose proof (c_deps w C d a E) as Ed.
  pose proof (consistent_valid w C) as Hv.
  pose proof (c_synced w C Hu) as Y.
  pose proof (rendered_synced _ (synced_with_props p w Y)) as Ymid.
  destruct (config_change w p d a R E Hne)
    as (w' & S' & R' & _ & Ei' & El' & Ev' & Eh' & _ & Eu' & _).
  assert (N : next (Render p) w = rendered (flushed (with_props p w))).
  { simpl. rewrite Hu, (flushed_id w d a C E), (rendered_synced w Y), Ymid.
    reflexivity. }
  assert (Enext : w' = next (Render p) w).
  { rewrite (reachable_step_next _ _ R) in S'. congruence. }
  destruct (run_quiet_not_ready es w' R' Q Ei') as (w'' & Erun & R'' & El'' & Ei'').
  destruct (provided_synced w' (reachable_consistent w' R') Eu')
    as (v & Ev & Elv & Eiv).
  exists (with_props p w), w', w''.
  split.
  { unfold exec, bind, modify.
    rewrite VerbaProvider_run by apply valid_with_props, Hv.
    rewrite Ymid. reflexivity. }
  split; [reflexivity|].
  split; [reflexivity|]. split; [reflexivity|]. split; [exact Ea|].
  split.
  { unfold exec. rewrite (bind_Ok _ _ _ _ _ (flush_effects_run _)).
    rewrite VerbaProvider_run
      by apply valid_flushed, valid_with_props, Hv.
    rewrite Enext, N. reflexivity. }
  split; [exact S'|].
  split.
  { rewrite Eh'. rewrite list_lookup_middle by reflexivity. reflexivity. }
  split; [exact Ev'|].
  split; [unfold reactive; congruence|].
  split; [exists v; split; [exact Ev|]; split; congruence|].
  split; [exact Erun|].
  split; [unfold reactive; congruence|].
  split.
  { intros Hu''.
    destruct (provided_synced w'' (reachable_consistent w'' R'') Hu'')
      as (v'' & Ev'' & Elv'' & Eiv'').
    exists v''. split; [exact Ev''|]. split; congruence. }
  intros i Er Ehi Ep.
  pose proof (reachable_attached w'' R'' _ i Ehi) as Eat.
  destruct (resolve_live w'' _ i Er Ehi Ep Eat) as (Ei3 & El3 & _).
  exists (next (Resolve (length (heap w))) w'').
  split; [apply reachable_step_next, R''|]. auto.
Qed.

(** *** What makes the memo cells change *)

Lemma flushed_memos w :
  t_memo (flushed w) = t_memo w /\ value_memo (flushed w) = value_memo w /\
  unmounted (flushed w) = unmounted w /\
  currentLocale (flushed w) = currentLocale w.
Proof.
  unfold flushed. destruct (unmounted w) eqn:Hu; [auto|].
  destruct (effect w) as [[d a]|].
  - destruct (decide _); [auto|]. simpl.
    destruct (after_cleanup_fixed a w) as (_ & Eu & _ & _ & El & Et & Ev).
    rewrite Et, Ev, Eu, El. auto.
  - simpl. auto.
Qed.

Lemma flushed_reactive w :
  consistent w -> reactive (flushed w) = reactive w.
Proof.
  intros C. unfold reactive.
  destruct (flushed_memos w) as (_ & _ & _ & ->). f_equal.
  unfold flushed. destruct (unmounted w) eqn:Hu; [reflexivity|].
  destruct (effect w) as [[d a]|] eqn:Ee.
  - rewrite decide_True by exact (c_deps w C d a Ee). reflexivity.
  - simpl. symmetry. apply (c_first w (c_stable w C) Hu Ee).
Qed.

Lemma synced_reactive w w' :
  t_memo w' = t_memo w -> value_memo w' = value_memo w ->
  reactive w' = reactive w -> synced w -> synced w'.
Proof.
  unfold reactive. intros Et Ev [= El Ei]. apply synced_same; assumption.
Qed.

Lemma called_back_memos r w :
  t_memo (called_back r w) = t_memo w /\
  value_memo (called_back r w) = value_memo w.
Proof.
  unfold called_back. destruct (decide _); [|auto].
  destruct (heap w !! r); simpl; auto.
Qed.

Lemma locale_set_memos x w :
  t_memo (locale_set x w) = t_memo w /\
  value_memo (locale_set x w) = value_memo w.
Proof.
  unfold locale_set. destruct (verbaRef w) as [r|]; [|auto].
  destruct (heap w !! r); simpl; auto.
Qed.

(** Every step of a mounted Provider is a handler that leaves the memo
    cells alone, followed by at most one render that can see a change. *)
Lemma next_shape e w :
  consistent w -> unmounted w = false ->
  exists w1,
    t_memo w1 = t_memo w /\ value_memo w1 = value_memo w /\
    ((next e w = rendered w1 /\ unmounted w1 = false) \/
     (next e w = w1 /\ reactive w1 = reactive w)).
Proof.
  intros C Hu. pose proof (c_synced w C Hu) as Y.
  destruct (flushed_memos w) as (Ft & Fv & Fu & _).
  pose proof (flushed_reactive w C) as Fr.
  assert (Yf : synced (flushed w)) by (eapply synced_reactive; eauto).
  destruct e as [|p| |r|r|r v|x]; simpl next.
  - exists (flushed w). split; [exact Ft|]. split; [exact Fv|].
    left. split; [reflexivity | congruence].
  - rewrite Hu, (rendered_synced _ Yf).
    rewrite (rendered_synced _ (synced_with_props p _ Yf)).
    destruct (flushed_memos (with_props p (flushed w))) as (Gt & Gv & Gu & _).
    exists (flushed (with_props p (flushed w))).
    split; [rewrite Gt; exact Ft|]. split; [rewrite Gv; exact Fv|].
    left. split; [reflexivity|]. rewrite Gu. cbn [unmounted with_props].
    congruence.
  - exists (torn_down w). unfold torn_down. rewrite Hu.
    destruct (effect (flushed w)) as [[d a]|].
    + destruct (after_cleanup_fixed a (flushed w))
        as (_ & _ & _ & Ei & El & Et & Ev).
      split; [simpl; congruence|]. split; [simpl; congruence|].
      right. split; [reflexivity|].
      unfold reactive in *. simpl. rewrite Ei, El. exact Fr.
    + split; [simpl; congruence|]. split; [simpl; congruence|].
      right. split; [reflexivity|]. exact Fr.
  - destruct (settled_core r Fulfilled w)
      as (_ & _ & _ & _ & _ & _ & Eu & Et & Ev & _).
    destruct (called_back_memos r (settled r Fulfilled w)) as (Ct & Cv).
    destruct (called_back_fixed r (settled r Fulfilled w))
      as (_ & _ & Cu & _ & _).
    destruct (triggers r w).
    + exists (called_back r (settled r Fulfilled w)).
      split; [congruence|]. split; [congruence|].
      left. split; [reflexivity | congruence].
    + exists (settled r Fulfilled w).
      split; [congruence|]. split; [congruence|].
      left. split; [reflexivity | congruence].
  - destruct (settled_core r Rejected w)
      as (_ & Ei & El & _ & _ & _ & _ & Et & Ev & _).
    exists (settled r Rejected w). split; [exact Et|]. split; [exact Ev|].
    right. split; [reflexivity|]. unfold reactive. congruence.
  - exists (next (ClientInternal r v) w). simpl.
    destruct (heap w !! r); simpl; auto.
  - destruct (locale_set_memos x w) as (Lt & Lv).
    destruct (locale_set_fixed x w) as (_ & _ & Lu & _ & _).
    exists (locale_set x w). split; [exact Lt|]. split; [exact Lv|].
    left. split; [reflexivity | congruence].
Qed.

Lemma rendered_reactive w : reactive (rendered w) = reactive w.
Proof.
  unfold reactive. rewrite rendered_currentLocale, rendered_isReady.
  reflexivity.
Qed.

Lemma rendered_identity w w1 :
  synced w -> t_memo w1 = t_memo w -> value_memo w1 = value_memo w ->
  unmounted w1 = false ->
  (t_identity (rendered w1) = t_identity w <-> reactive w1 = reactive w) /\
  (reactive w1 = reactive w -> value_memo (rendered w1) = value_memo w).
Proof.
  intros Y Et Ev Hu.
  assert (K : reactive w1 = reactive w -> rendered w1 = w1).
  { intros Er. apply rendered_synced. eapply synced_reactive; eauto. }
  split; [split|].
  - intros Ei. destruct (decide (reactive w1 = reactive w)) as [Er|Hne];
      [exact Er|exfalso].
    destruct Y as (tm & vm & Etm & _ & Dt & _).
    unfold t_identity, rendered in Ei. rewrite Hu, Et, Etm in Ei.
    cbn [t_memo with_memos useCallback] in Ei.
    rewrite decide_False in Ei by (rewrite Dt; intros X; apply Hne; symmetry; exact X).
    simpl in Ei. injection Ei as Ei. lia.
  - intros Er. rewrite (K Er). unfold t_identity. rewrite Et. reflexivity.
  - intros Er. rewrite (K Er). exact Ev.
Qed.

Lemma step_memos e w :
  reachable w ->
  (t_identity (next e w) = t_identity w <->
     reactive (next e w) = reactive w) /\
  (reactive (next e w) = reactive w ->
     value_memo (next e w) = value_memo w).
Proof.
  intros R. pose proof (reachable_consistent w R) as C.
  destruct (unmounted w) eqn:Hu.
  - pose proof (c_no_effect w (c_stable w C) (c_unmounted w (c_stable w C) Hu))
      as Er.
    destruct (next_frozen e w Hu Er) as (_ & _ & _ & Ei & El & Et & Ev & _).
    unfold t_identity, reactive. rewrite Et, Ei, El. tauto.
  - destruct (next_shape e w C Hu) as (w1 & Et & Ev & [[-> Hu1]|[-> Er]]).
    + rewrite rendered_reactive.
      apply rendered_identity; auto. apply (c_synced w C Hu).
    + unfold t_identity. rewrite Et. tauto.
Qed.

(** X6.  The identity of the exposed [t] changes in a step exactly when
    [currentLocale] or [isReady] changed in that step; no other event
    (a render with the same or other props, client activity, a rejected or
    stale readiness) gives consumers a new [t]. *)
Theorem t_identity_tracks_state e w :
  reachable w ->
  exists w', step e w = Ok w' /\
    (t_identity w' = t_identity w <-> reactive w' = reactive w).
Proof.
  intros R. exists (next e w). split; [apply reachable_step_next, R|].
  apply step_memos, R.
Qed.

(** X7.  The [value] object is replaced only by a step that changes
    [currentLocale] or [isReady].  In particular the client's own activity
    never refreshes it: after the stored client changed its state, even
    with a further render for the same props, consumers are supplied the
    very value they had, with the [locales] and [defaultLocale] read at
    the last change of state. *)
Theorem value_replaced_only_on_state_change e w d a r v :
  reachable w -> effect w = Some (d, a) ->
  (exists w', step e w = Ok w' /\
     (reactive w' = reactive w -> value_memo w' = value_memo w)) /\
  (exists w', run [ClientInternal r v; Render d] w = Ok w' /\
     provided w' = provided w /\
     forall i, heap w !! r = Some i -> client <$> heap w' !! r = Some v).
Proof.
  intros R E. pose proof (reachable_consistent w R) as C. split.
  - exists (next e w). split; [apply reachable_step_next, R|].
    apply step_memos, R.
  - pose proof (reachable_next (ClientInternal r v) w R) as R1.
    set (w1 := next (ClientInternal r v) w) in *.
    assert (F : effect w1 = effect w /\ unmounted w1 = unmounted w /\
                value_memo w1 = value_memo w).
    { unfold w1. simpl. destruct (heap w !! r); simpl; auto. }
    destruct F as (Fe & Fu & Fv).
    assert (E1 : effect w1 = Some (d, a)) by congruence.
    assert (S1 : step (Render d) w1 = Ok w1).
    { pose proof (reachable_consistent w1 R1) as C1.
      destruct (c_effect w1 (c_stable w1 C1) d a E1) as [Hu1 _].
      rewrite (reachable_step_next _ _ R1). simpl.
      rewrite Hu1, (flushed_id w1 d a C1 E1).
      rewrite (rendered_synced w1 (c_synced w1 C1 Hu1)).
      rewrite (c_deps w1 C1 d a E1), with_props_same.
      rewrite (rendered_synced w1 (c_synced w1 C1 Hu1)).
      rewrite (flushed_id w1 d a C1 E1).
      rewrite (rendered_synced w1 (c_synced w1 C1 Hu1)). reflexivity. }
    exists w1. split.
    { cbn [run]. rewrite (reachable_step_next _ _ R). fold w1.
      rewrite S1. reflexivity. }
    split; [unfold provided; rewrite Fu, Fv; reflexivity|].
    intros i Ei. unfold w1. simpl. rewrite Ei. cbn [heap with_heap].
    rewrite list_lookup_insert_eq by (eapply lookup_lt_Some, Ei).
    reflexivity.
Qed.

(** *** Closures that outlive the Provider *)

Lemma t_without_instance key d params w :
  verbaRef w = None -> t key d params w = Ok (fallback key d, w).
Proof.
  intros E. assert (Rd : readRef w = Ok (verbaRef w, w)) by reflexivity.
  unfold t. rewrite (bind_Ok _ _ _ _ _ Rd), E. reflexivity.
Qed.

Lemma setLocale_without_instance x w :
  verbaRef w = None -> setLocale x w = Ok (tt, w).
Proof.
  intros E. assert (Rd : readRef w = Ok (verbaRef w, w)) by reflexivity.
  unfold setLocale. rewrite (bind_Ok _ _ _ _ _ Rd), E. reflexivity.
Qed.

(** X8.  Closures kept by former consumers are harmless once the Provider
    is unmounted: whatever happens afterwards, a call of the old [t]
    returns the string default or the key and does not throw, a call of
    the old [setLocale] does nothing and does not throw, and the Provider
    supplies no value any more. *)
Theorem closures_after_unmount_are_inert w es key d params x :
  reachable w ->
  exists wu w',
    step Unmount w = Ok wu /\ run es wu = Ok w' /\
    t key d params w' = Ok (fallback key d, w') /\
    setLocale x w' = Ok (tt, w') /\
    provided w' = None.
Proof.
  intros R. pose proof (reachable_consistent w R) as C.
  destruct (stable_torn_down w (c_stable w C)) as (_ & Hu & Hr).
  destruct (run_frozen es (torn_down w) Hu Hr)
    as (w' & Erun & Hu' & Hr' & _).
  exists (next Unmount w), w'.
  split; [apply reachable_step_next, R|]. split; [exact Erun|].
  split; [apply t_without_instance, Hr'|].
  split; [apply setLocale_without_instance, Hr'|].
  unfold provided. rewrite Hu'. reflexivity.
Qed.

(** *** A locale chosen before readiness *)

(** X9.  A locale set while the stored client is still loading is shown
    at once, but it is not final: when the client's readiness resolves,
    [currentLocale] becomes what the client, which received the
    [setLocale] call, reports from [getLocale()]. *)
Theorem early_setLocale_is_settled_by_client w r i x :
  reachable w -> verbaRef w = Some r -> heap w !! r = Some i ->
  ready i = Pending ->
  exists w1 w2,
    step (CallSetLocale x) w = Ok w1 /\
    currentLocale w1 = x /\ isReady w1 = false /\
    step (Resolve r) w1 = Ok w2 /\
    isReady w2 = true /\
    currentLocale w2 = verba_getLocale (verba_setLocale x (client i)).
Proof.
  intros R Er Ei Ep. pose proof (reachable_consistent w R) as C.
  assert (Epr : promise w r = Some Pending)
    by (unfold promise; rewrite Ei; simpl; congruence).
  pose proof (pending_not_ready w r C Er Epr) as Ef.
  pose proof (reachable_next (CallSetLocale x) w R) as R1.
  set (w1 := next (CallSetLocale x) w) in *.
  assert (El : locale_set x w =
    log (ASetCurrentLocale x)
      (with_currentLocale x
         (log (AClientSetLocale r x)
            (with_heap
               (<[r := {| client := verba_setLocale x (client i);
                          ready := ready i;
                          then_attached := then_attached i |}]>
                  (heap w)) w))))
    by (unfold locale_set; rewrite Er, Ei; reflexivity).
  assert (Er1 : verbaRef w1 = Some r)
    by (unfold w1; simpl; rewrite rendered_verbaRef, El; exact Er).
  assert (Eh1 : heap w1 !! r =
                Some {| client := verba_setLocale x (client i);
                        ready := ready i;
                        then_attached := then_attached i |}).
  { unfold w1. simpl. rewrite rendered_heap, El.
    cbn [heap log with_currentLocale with_heap].
    apply list_lookup_insert_eq. eapply lookup_lt_Some, Ei. }
  pose proof (reachable_attached w1 R1 r _ Eh1) as Ea1.
  destruct (resolve_live w1 r _ Er1 Eh1 Ep Ea1) as (Ei2 & El2 & _).
  exists w1, (next (Resolve r) w1).
  split; [apply reachable_step_next, R|].
  split; [unfold w1; simpl; rewrite rendered_currentLocale, El; reflexivity|].
  split.
  { unfold w1. simpl. rewrite rendered_isReady.
    destruct (locale_set_fixed x w) as (_ & _ & _ & _ & ->). exact Ef. }
  split; [apply reachable_step_next, R1|].
  split; [exact Ei2 | exact El2].
Qed.

(** *** When clients are constructed *)

(** X10.  Once the effect is mounted, a client is constructed only by a
    render whose props differ from those of the mounted effect: every
    other event leaves the number of client objects unchanged, and every
    other event except the unmount leaves the same client in the ref
    cell. *)
Theorem client_constructed_only_on_change e w d a :
  reachable w -> effect w = Some (d, a) ->
  (forall p, e = Render p -> p = d) ->
  exists w',
    step e w = Ok w' /\
    length (heap w') = length (heap w) /\
    (e <> Unmount -> verbaRef w' = verbaRef w).
Proof.
  intros R E Hp. pose proof (reachable_consistent w R) as C.
  destruct (c_effect w (c_stable w C) d a E) as [Hu Ea].
  pose proof (flushed_id w d a C E) as F.
  exists (next e w). split; [apply reachable_step_next, R|].
  destruct e as [|p| |r|r|r v|x];
    [simpl next| |simpl next|simpl next|simpl next|simpl next|simpl next].
  - rewrite F, rendered_heap, rendered_verbaRef. auto.
  - rewrite (Hp p eq_refl), (rerender_same_props_fixed w d a R E). auto.
  - unfold torn_down. rewrite Hu, F, E. simpl.
    destruct (after_cleanup_fixed a w) as (_ & _ & -> & _).
    split; [reflexivity | congruence].
  - destruct (settled_core r Fulfilled w)
      as (_ & _ & _ & Ev & Eh & _).
    destruct (called_back_fixed r (settled r Fulfilled w))
      as (_ & _ & _ & Cv & Ch).
    rewrite rendered_heap, rendered_verbaRef.
    destruct (triggers r w); rewrite ?Ch, ?Cv, Eh, Ev; auto.
  - destruct (settled_core r Rejected w) as (_ & _ & _ & Ev & Eh & _).
    rewrite Eh, Ev. auto.
  - destruct (heap w !! r); simpl; rewrite ?length_insert; auto.
  - rewrite rendered_heap, rendered_verbaRef.
    destruct (locale_set_fixed x w) as (_ & _ & _ & -> & _).
    unfold locale_set. rewrite Ea.
    destruct (heap w !! a); simpl; rewrite ?length_insert; auto.
Qed.

(** *** The mount *)

(** X11.  Mounting a Provider with props [p], first render and first
    effect, never throws and constructs exactly one client, from [p]: the
    operations are [setIsReady(false)], [new Verba(p)], the store into the
    ref cell and the readiness request, in this order, and the client's
    promise is pending.  The effect does not change the state, so it causes
    no further render: consumers keep the value of the first render, with
    the locale [locale ?? "en"], empty [locales] and [isReady] false. *)
Theorem mount_constructs_one_client p :
  exists w0 w1 : World V,
    initial p = Ok w0 /\ step Flush w0 = Ok w1 /\
    trace w1 = [ASetIsReady false; ANewVerba p 0; AStoreRef (Some 0);
                AReadyThen 0] /\
    heap w1 = [new_instance p] /\
    verbaRef w1 = Some 0 /\ effect w1 = Some (p, 0) /\
    reactive w1 = (default "en" (locale p), false) /\
    provided w1 = provided w0 /\
    provided w1 =
      Some {| value_t := 0; value_locale := default "en" (locale p);
              value_locales := []; value_defaultLocale := None;
              value_isReady := false |}.
Proof.
  set (w0 := rendered (fresh p : World V)).
  assert (R0 : reachable w0) by (eapply reachable_initial, initial_rendered).
  pose proof (reachable_consistent w0 R0) as C0.
  assert (F : flushed w0 =
              with_effect (Some (p, 0)) (after_effect p w0)) by reflexivity.
  assert (Y : synced (flushed w0)).
  { eapply synced_reactive; [| | |apply (c_synced w0 C0); reflexivity];
      rewrite F; reflexivity. }
  exists w0, (flushed w0).
  split; [apply initial_rendered|].
  split.
  { rewrite (reachable_step_next _ _ R0). simpl.
    rewrite (rendered_synced _ Y). reflexivity. }
  rewrite F. repeat split.
Qed.

(** X12.  Inside a mounted [VerbaProvider], whatever the state it has
    reached and whatever providers enclose it, [useVerba] does not throw:
    it returns the Provider's value, whose [locale] and [isReady] are the
    Provider's current state. *)
Theorem useVerba_inside_provider w
    (enclosing : list (option VerbaContextValue)) :
  reachable w -> unmounted w = false ->
  exists v, useVerba (provided w :: enclosing) = Ok v /\
    provided w = Some v /\
    value_locale v = currentLocale w /\ value_isReady v = isReady w.
Proof.
  intros R Hu.
  destruct (provided_synced w (reachable_consistent w R) Hu)
    as (v & Ev & El & Ei).
  exists v. unfold useVerba. simpl. rewrite Ev. auto.
Qed.

End Facts.

(** ** The statements at concrete inputs *)

Module SampleFacts.
Import Sample.

Lemma after_reachable l es : reachable (after l es).
Proof.
  unfold after. rewrite initial_rendered.
  assert (R0 : reachable (rendered (fresh (config l) : World Client)))
    by (eapply reachable_initial, initial_rendered).
  destruct (reachable_run es _ R0) as (w & -> & R). exact R.
Qed.

(** The mount of a Provider without a locale prop: the operations of its
    first effect, in order. *)
Example mount_trace :
  trace (after None [Flush]) =
  [ASetIsReady false; ANewVerba (config None) 0; AStoreRef (Some 0);
   AReadyThen 0].
Proof. vm_compute. reflexivity. Qed.

(** Before the first effect [t] answers by itself. *)
Example t_before_first_effect :
  t "greeting" None None (after (Some "es") []) =
    Ok ("greeting", after (Some "es") []) /\
  t "greeting" (Some (DefaultValue "Hello")) None (after (Some "es") []) =
    Ok ("Hello", after (Some "es") []) /\
  t "greeting" (Some (ParamsValue [("name", PString "Ana")])) None
    (after (Some "es") []) = Ok ("greeting", after (Some "es") []).
Proof. repeat split; vm_compute; reflexivity. Qed.

(** Readiness mirrors the locale the client negotiated. *)
Example ready_mirrors_client_locale :
  currentLocale (after None [Flush]) = "en" /\
  currentLocale (after None [Flush; Resolve 0]) = "en-US" /\
  provided (after None [Flush; Resolve 0]) =
    Some {| value_t := 1; value_locale := "en-US";
            value_locales := ["en-US"; "es"];
            value_defaultLocale := Some "en-US"; value_isReady := true |}.
Proof. repeat split; vm_compute; reflexivity. Qed.

(** The exposed value is memoised: until a state change forces a new
    render it keeps the locale list of the render that computed it. *)
Example value_is_memoised :
  verbaRef (after None [Flush]) = Some 0 /\
  value_locales <$> provided (after None [Flush]) = Some [].
Proof. repeat split; vm_compute; reflexivity. Qed.

Lemma config_injective l l' : l <> l' -> config l <> config l'.
Proof. intros Hne [= E]. exact (Hne E). Qed.

(** The Provider mounted without a locale prop, its first effect run, is
    reconfigured for ["es"]; the old client settles on ["fr"], the new one
    on ["es-MX"], and the new client resolves first. *)
Lemma stale_readiness_never_wins_witness :
  effect (after None [Flush]) = Some (config None, 0) /\
  config (Some "es") <> config None /\
  exists wB b w',
    step (Render (config (Some "es"))) (after None [Flush]) = Ok wB /\
    run [ClientInternal 0 {| sample_locale := "fr"; sample_cache := [] |};
         ClientInternal b {| sample_locale := "es-MX"; sample_cache := [] |};
         Resolve b; Resolve 0] wB = Ok w' /\
    isReady w' = true /\ currentLocale w' = "es-MX".
Proof.
  assert (E : effect (after None [Flush]) = Some (config None, 0))
    by (vm_compute; reflexivity).
  assert (Hne : config (Some "es") <> config None)
    by (apply config_injective; discriminate).
  split; [exact E|]. split; [exact Hne|].
  destruct (stale_readiness_never_wins (after None [Flush])
              (config None) (config (Some "es")) 0
              {| sample_locale := "fr"; sample_cache := [] |}
              {| sample_locale := "es-MX"; sample_cache := [] |}
              (after_reachable None [Flush]) E Hne)
    as [(wB & b & w' & SB & _ & _ & _ & _ & Erun & Ei & El & _) _].
  exists wB, b, w'. auto.
Defined.

(** Before its readiness has resolved, the client configured for ["es"]
    already answers from its cache: [t] does not return the default. *)
Lemma t_before_readiness_reaches_client :
  reachable (after (Some "es") [Flush]) /\
  isReady (after (Some "es") [Flush]) = false /\
  verbaRef (after (Some "es") [Flush]) = Some 0 /\
  promise (after (Some "es") [Flush]) 0 = Some Pending /\
  t "greeting" (Some (DefaultValue "Hello")) None (after (Some "es") [Flush])
    = Ok ("Hola", after (Some "es") [Flush]) /\
  "Hola" <> fallback "greeting" (Some (DefaultValue "Hello")).
Proof.
  split; [apply after_reachable|].
  repeat split; try (vm_compute; reflexivity).
  vm_compute. discriminate.
Qed.

Lemma t_falls_back_only_without_instance_witness :
  (verbaRef (after (Some "es") [Flush]) = None /\
   t "greeting" (Some (DefaultValue "Hello")) None
     (after (Some "es") [Flush]) =
   Ok (fallback "greeting" (Some (DefaultValue "Hello")),
       after (Some "es") [Flush])) \/
  (exists r i,
     verbaRef (after (Some "es") [Flush]) = Some r /\
     heap (after (Some "es") [Flush]) !! r = Some i /\
     t "greeting" (Some (DefaultValue "Hello")) None
       (after (Some "es") [Flush]) =
     Ok (verba_t (client i) "greeting" (Some (DefaultValue "Hello")) None,
         after (Some "es") [Flush])).
Proof.
  apply (t_falls_back_only_without_instance (after (Some "es") [Flush])).
  apply after_reachable.
Defined.

Example ready_flips_sample :
  ready_flips 0 [Resolve 0; Resolve 0; CallSetLocale "es"; Resolve 0]
    (after None [Flush]) = 1.
Proof. vm_compute. reflexivity. Qed.


Lemma unmount_in_flight_is_silent_witness :
  verbaRef (after None [Flush]) = Some 0 /\
  promise (after None [Flush]) 0 = Some Pending /\
  exists wu w',
    step Unmount (after None [Flush]) = Ok wu /\
    run [Resolve 0; CallSetLocale "es"; Render (config (Some "es"))] wu
      = Ok w' /\
    isReady w' = isReady (after None [Flush]) /\
    currentLocale w' = currentLocale (after None [Flush]) /\
    trace w' = trace wu.
Proof.
  assert (Er : verbaRef (after None [Flush]) = Some 0)
    by (vm_compute; reflexivity).
  assert (Ep : promise (after None [Flush]) 0 = Some Pending)
    by (vm_compute; reflexivity).
  split; [exact Er|]. split; [exact Ep|].
  destruct (unmount_in_flight_is_silent (after None [Flush]) 0
              [CallSetLocale "es"; Render (config (Some "es"))]
              (after_reachable None [Flush]) Er Ep)
    as (wu & w' & Su & Ei & El & _ & Erun & Ei' & El' & _ & Ea).
  exists wu, w'. rewrite <- Ei, <- El. auto.
Defined.

(** Right after the call of [setLocale "es"], before any render, the value
    consumers hold still has the locale ["en"]. *)
Lemma setLocale_read_before_render :
  verbaRef (after None [Flush]) = Some 0 /\
  exists w1,
    setLocale "es" (after None [Flush]) = Ok (tt, w1) /\
    value_locale <$> provided w1 = Some "en" /\
    "en" <> "es".
Proof.
  split; [vm_compute; reflexivity|].
  eexists. split; [vm_compute; reflexivity|].
  split; [vm_compute; reflexivity | discriminate].
Qed.

Lemma setLocale_mirrors_on_next_render_witness :
  exists r i w1 w',
    verbaRef (after None [Flush]) = Some r /\
    heap (after None [Flush]) !! r = Some i /\
    setLocale "es" (after None [Flush]) = Ok (tt, w1) /\
    provided w1 = provided (after None [Flush]) /\
    step (CallSetLocale "es") (after None [Flush]) = Ok w' /\
    currentLocale w' = "es" /\
    value_locale <$> provided w' = Some "es".
Proof.
  destruct (setLocale_mirrors_on_next_render (after None [Flush]) "es"
              (after_reachable None [Flush]))
    as [(En & _)|(r & i & w1 & w' & Er & Ei & S1 & _ & _ & Ep & _ & _
                  & S & _ & El & Ev & _)].
  - exfalso. vm_compute in En. discriminate.
  - exists r, i, w1, w'. auto 10.
Defined.

Lemma rejected_readiness_stays_not_ready_witness :
  verbaRef (after None [Flush]) = Some 0 /\
  promise (after None [Flush]) 0 = Some Pending /\
  exists w1 w',
    step (Reject 0) (after None [Flush]) = Ok w1 /\
    isReady w1 = false /\ promise w1 0 = Some Rejected /\
    run [Resolve 0; CallSetLocale "es"] w1 = Ok w' /\
    (verbaRef w' = Some 0 -> isReady w' = false).
Proof.
  assert (Er : verbaRef (after None [Flush]) = Some 0)
    by (vm_compute; reflexivity).
  assert (Ep : promise (after None [Flush]) 0 = Some Pending)
    by (vm_compute; reflexivity).
  split; [exact Er|]. split; [exact Ep|].
  destruct (rejected_readiness_stays_not_ready (after None [Flush]) 0
              [Resolve 0; CallSetLocale "es"]
              (after_reachable None [Flush]) Er Ep)
    as (w1 & w' & S1 & _ & Ei & _ & _ & _ & Ep1 & Erun & Hs).
  exists w1, w'. auto 10.
Defined.

Lemma config_change_sequence_witness :
  effect (after None [Flush]) = Some (config None, 0) /\
  config (Some "es") <> config None /\
  exists w',
    step (Render (config (Some "es"))) (after None [Flush]) = Ok w' /\
    trace w' =
      (trace (after None [Flush]) ++
       [AStoreRef None; ASetIsReady false;
        ANewVerba (config (Some "es")) (length (heap (after None [Flush])));
        AStoreRef (Some (length (heap (after None [Flush]))));
        AReadyThen (length (heap (after None [Flush])))])%list /\
    isReady w' = false /\
    live w' (length (heap (after None [Flush]))) /\ ~ live w' 0.
Proof.
  assert (E : effect (after None [Flush]) = Some (config None, 0))
    by (vm_compute; reflexivity).
  assert (Hne : config (Some "es") <> config None)
    by (apply config_injective; discriminate).
  split; [exact E|]. split; [exact Hne|].
  destruct (config_change_sequence (after None [Flush])
              (config (Some "es")) (config None) 0
              (after_reachable None [Flush]) E Hne)
    as [(w' & S' & Ea & _ & Ei & _ & _ & _ & L & NL & _) _].
  exists w'. auto 10.
Defined.

Lemma initial_locale_is_prop_or_en_witness :
  forallb quiet [Flush; @Reject Client 0; Render (config (Some "es"))]
    = true /\
  exists w0 w : World Client,
    initial (config None) = Ok w0 /\
    value_locale <$> provided w0 = Some "en" /\
    run [Flush; Reject 0; Render (config (Some "es"))] w0 = Ok w /\
    currentLocale w = "en".
Proof.
  assert (Q : forallb quiet [Flush; @Reject Client 0;
                             Render (config (Some "es"))] = true)
    by reflexivity.
  split; [exact Q|].
  destruct (initial_locale_is_prop_or_en (config None) _ Q)
    as (w0 & w & E0 & _ & _ & _ & Ev & Erun & El & _).
  exists w0, w. auto 10.
Defined.



End SampleFacts.

(** ** The further properties at concrete inputs *)

Module SampleMore.
Import Sample.

Lemma Ok_inj {A : Type} (a b : A) : Ok a = Ok b -> a = b.
Proof. intros [= E]. exact E. Qed.

(** The client the sample Provider constructs on mount. *)
Lemma mounted_client :
  heap (after None [Flush]) !! 0 = Some (new_instance (config None)).
Proof. vm_compute. reflexivity. Qed.

Lemma mounted_effect :
  effect (after None [Flush]) = Some (config None, 0).
Proof. vm_compute. reflexivity. Qed.

Lemma rerender_with_same_props_is_noop_witness :
  effect (after None [Flush]) = Some (config None, 0) /\
  step (Render (config None)) (after None [Flush]) = Ok (after None [Flush]).
Proof.
  split; [exact mounted_effect|].
  apply (rerender_with_same_props_is_noop (after None [Flush])
           (config None) 0 (SampleFacts.after_reachable None [Flush])
           mounted_effect).
Defined.

Lemma readiness_publishes_client_witness :
  verbaRef (after None [Flush]) = Some 0 /\
  heap (after None [Flush]) !! 0 = Some (new_instance (config None)) /\
  exists w' v,
    step (Resolve 0) (after None [Flush]) = Ok w' /\
    isReady w' = true /\ currentLocale w' = "en-US" /\
    provided w' = Some v /\
    value_locales v = ["en-US"; "es"] /\
    value_defaultLocale v = Some "en-US".
Proof.
  assert (Er : verbaRef (after None [Flush]) = Some 0)
    by (vm_compute; reflexivity).
  split; [exact Er|]. split; [exact mounted_client|].
  destruct (readiness_publishes_client (after None [Flush]) 0
              (new_instance (config None))
              (SampleFacts.after_reachable None [Flush]) Er mounted_client
              eq_refl)
    as (w' & v & S & Ei & El & _ & Ev & _ & Els & Ed & _).
  exists w', v. auto 10.
Defined.


Lemma exposed_value_tracks_state_witness :
  unmounted (after None [Flush; Resolve 0; CallSetLocale "es"]) = false /\
  exists v,
    provided (after None [Flush; Resolve 0; CallSetLocale "es"]) = Some v /\
    value_locale v =
      currentLocale (after None [Flush; Resolve 0; CallSetLocale "es"]) /\
    value_isReady v =
      isReady (after None [Flush; Resolve 0; CallSetLocale "es"]).
Proof.
  assert (Hu : unmounted (after None [Flush; Resolve 0; CallSetLocale "es"])
               = false) by (vm_compute; reflexivity).
  split; [exact Hu|].
  apply (exposed_value_tracks_state _
           (SampleFacts.after_reachable None
              [Flush; Resolve 0; CallSetLocale "es"]) Hu).
Defined.

(** A ready Provider is reconfigured for ["es"]; the new client then
    negotiates ["es-MX"] and resolves. *)
Lemma config_change_keeps_locale_witness :
  effect (after None [Flush; Resolve 0]) = Some (config None, 0) /\
  config (Some "es") <> config None /\
  forallb quiet
    [@ClientInternal Client 1
       {| sample_locale := "es-MX"; sample_cache := [] |}] = true /\
  exists wmid w' w'' w3,
    exec (bind (modify (with_props (config (Some "es"))))
            (fun _ => VerbaProvider)) (after None [Flush; Resolve 0])
      = Ok wmid /\
    reactive wmid = ("en-US", true) /\
    step (Render (config (Some "es"))) (after None [Flush; Resolve 0])
      = Ok w' /\
    client <$> heap w' !! 1 = Some (verba_new (config (Some "es"))) /\
    reactive w' = ("en-US", false) /\
    run [ClientInternal 1 {| sample_locale := "es-MX"; sample_cache := [] |}]
      w' = Ok w'' /\
    reactive w'' = ("en-US", false) /\
    step (Resolve 1) w'' = Ok w3 /\
    isReady w3 = true /\ currentLocale w3 = "es-MX".
Proof.
  assert (E : effect (after None [Flush; Resolve 0]) = Some (config None, 0))
    by (vm_compute; reflexivity).
  assert (Hne : config (Some "es") <> config None)
    by (apply SampleFacts.config_injective; discriminate).
  assert (Q : forallb quiet
                [@ClientInternal Client 1
                   {| sample_locale := "es-MX"; sample_cache := [] |}]
              = true) by reflexivity.
  split; [exact E|]. split; [exact Hne|]. split; [exact Q|].
  assert (L : length (heap (after None [Flush; Resolve 0])) = 1)
    by (vm_compute; reflexivity).
  assert (CL : currentLocale (after None [Flush; Resolve 0]) = "en-US")
    by (vm_compute; reflexivity).
  assert (RL : reactive (after None [Flush; Resolve 0]) = ("en-US", true))
    by (vm_compute; reflexivity).
  destruct (config_change_keeps_locale (after None [Flush; Resolve 0])
              (config (Some "es")) (config None) 0 _
              (SampleFacts.after_reachable None [Flush; Resolve 0]) E Hne Q)
    as (wmid & w' & w'' & Smid & _ & _ & Rmid & _ & _ & S' & Eh' & Ev' & Rw'
        & _ & Erun & Rw'' & _ & Hres).
  rewrite L in Eh', Ev', Hres. rewrite CL in Rw', Rw''. rewrite RL in Rmid.
  assert (X' : step (Render (config (Some "es")))
                 (after None [Flush; Resolve 0]) =
               Ok (after None [Flush; Resolve 0;
                               Render (config (Some "es"))]))
    by (vm_compute; reflexivity).
  assert (E' : Ok (after None [Flush; Resolve 0;
                               Render (config (Some "es"))]) = Ok w')
    by exact (eq_trans (eq_sym X') S').
  apply Ok_inj in E'. subst w'.
  assert (X'' : run [ClientInternal 1
                       {| sample_locale := "es-MX"; sample_cache := [] |}]
                  (after None [Flush; Resolve 0;
                               Render (config (Some "es"))]) =
                Ok (after None [Flush; Resolve 0;
                                Render (config (Some "es"));
                                ClientInternal 1
                                  {| sample_locale := "es-MX";
                                     sample_cache := [] |}]))
    by (vm_compute; reflexivity).
  assert (E'' : Ok (after None [Flush; Resolve 0;
                                Render (config (Some "es"));
                                ClientInternal 1
                                  {| sample_locale := "es-MX";
                                     sample_cache := [] |}]) = Ok w'')
    by exact (eq_trans (eq_sym X'') Erun).
  apply Ok_inj in E''. subst w''.
  destruct (Hres {| client := {| sample_locale := "es-MX";
                                 sample_cache := [] |};
                    ready := Pending; then_attached := true |})
    as (w3 & S3 & Ei3 & El3).
  { vm_compute. reflexivity. }
  { vm_compute. reflexivity. }
  { reflexivity. }
  eexists wmid, _, _, w3.
  split; [exact Smid|]. split; [exact Rmid|]. split; [exact S'|].
  split; [exact Eh'|]. split; [exact Rw'|]. split; [exact Erun|].
  split; [exact Rw''|]. split; [exact S3|]. split; [exact Ei3|exact El3].
Defined.

Lemma t_identity_tracks_state_witness :
  exists w',
    step (Resolve 0) (after None [Flush]) = Ok w' /\
    (t_identity w' = t_identity (after None [Flush]) <->
     reactive w' = reactive (after None [Flush])).
Proof.
  apply (t_identity_tracks_state (Resolve 0) (after None [Flush])).
  apply SampleFacts.after_reachable.
Defined.

Lemma value_replaced_only_on_state_change_witness :
  effect (after None [Flush; Resolve 0]) = Some (config None, 0) /\
  exists w',
    run [ClientInternal 0 {| sample_locale := "fr"; sample_cache := [] |};
         Render (config None)] (after None [Flush; Resolve 0]) = Ok w' /\
    provided w' = provided (after None [Flush; Resolve 0]).
Proof.
  assert (E : effect (after None [Flush; Resolve 0]) = Some (config None, 0))
    by (vm_compute; reflexivity).
  split; [exact E|].
  destruct (value_replaced_only_on_state_change Flush
              (after None [Flush; Resolve 0]) (config None) 0 0
              {| sample_locale := "fr"; sample_cache := [] |}
              (SampleFacts.after_reachable None [Flush; Resolve 0]) E)
    as [_ (w' & Erun & Ep & _)].
  exists w'. auto.
Defined.

Lemma closures_after_unmount_are_inert_witness :
  exists wu w',
    step Unmount (after None [Flush]) = Ok wu /\
    run [Resolve 0; Render (config (Some "es"))] wu = Ok w' /\
    t "greeting" (Some (DefaultValue "Hello")) None w' = Ok ("Hello", w') /\
    setLocale "es" w' = Ok (tt, w') /\
    provided w' = None.
Proof.
  apply (closures_after_unmount_are_inert (after None [Flush])
           [Resolve 0; Render (config (Some "es"))]
           "greeting" (Some (DefaultValue "Hello")) None "es").
  apply SampleFacts.after_reachable.
Defined.

Lemma early_setLocale_is_settled_by_client_witness :
  verbaRef (after None [Flush]) = Some 0 /\
  heap (after None [Flush]) !! 0 = Some (new_instance (config None)) /\
  exists w1 w2,
    step (CallSetLocale "fr") (after None [Flush]) = Ok w1 /\
    currentLocale w1 = "fr" /\ isReady w1 = false /\
    step (Resolve 0) w1 = Ok w2 /\
    isReady w2 = true /\ currentLocale w2 = "fr".
Proof.
  assert (Er : verbaRef (after None [Flush]) = Some 0)
    by (vm_compute; reflexivity).
  split; [exact Er|]. split; [exact mounted_client|].
  apply (early_setLocale_is_settled_by_client (after None [Flush]) 0
           (new_instance (config None)) "fr"
           (SampleFacts.after_reachable None [Flush]) Er mounted_client
           eq_refl).
Defined.

Lemma client_constructed_only_on_change_witness :
  effect (after None [Flush]) = Some (config None, 0) /\
  (forall p, @Resolve Client 0 = Render p -> p = config None) /\
  exists w',
    step (Resolve 0) (after None [Flush]) = Ok w' /\
    length (heap w') = length (heap (after None [Flush])) /\
    (@Resolve Client 0 <> Unmount ->
     verbaRef w' = verbaRef (after None [Flush])).
Proof.
  assert (Hp : forall p, @Resolve Client 0 = Render p -> p = config None)
    by (intros p; discriminate).
  split; [exact mounted_effect|]. split; [exact Hp|].
  apply (client_constructed_only_on_change (Resolve 0) (after None [Flush])
           (config None) 0 (SampleFacts.after_reachable None [Flush])
           mounted_effect Hp).
Defined.

Lemma useVerba_inside_provider_witness :
  unmounted (after None [Flush]) = false /\
  exists v,
    useVerba [provided (after None [Flush]); None] = Ok v /\
    provided (after None [Flush]) = Some v /\
    value_locale v = currentLocale (after None [Flush]) /\
    value_isReady v = isReady (after None [Flush]).
Proof.
  assert (Hu : unmounted (after None [Flush]) = false)
    by (vm_compute; reflexivity).
  split; [exact Hu|].
  apply (useVerba_inside_provider (after None [Flush]) [None]
           (SampleFacts.after_reachable None [Flush]) Hu).
Defined.

End SampleMore.
